(** * Exact rational arithmetic of [fun::Fraction<Z>] (include/py2cpp/fractions.hpp)

    The template parameter [Z] of the header is instantiated with a signed
    integer type of unbounded range, modelled by Rocq's [Z]: the header is
    generic and leaves the range of the representation to the caller.

    C++ [/] and [%] on integers truncate towards zero ([Z.quot], [Z.rem]) and
    are undefined for a zero divisor.  Both are therefore embedded as partial
    operations in the [option] monad: [None] stands for an executed division
    by zero, so that "the operation traps nowhere" is the statement that it
    returns [Some].

    Member functions that mutate [*this] are embedded by explicit state
    passing: they take the object and return the updated object (together
    with the returned value where the source returns one). *)

From Stdlib Require Import ZArith Zquot QArith Bool Lia Arith.
From Equations Require Import Equations.

Local Open Scope Z_scope.

(** ** The error monad of integer division *)

Definition bind {A B : Type} (x : option A) (k : A -> option B) : option B :=
  match x with
  | Some a => k a
  | None => None
  end.

Notation "x <- e ;; k" := (bind e (fun x => k))
  (at level 61, e at next level, right associativity).
Notation "' p <- e ;; k" := (bind e (fun p => k))
  (at level 61, p pattern, e at next level, right associativity).

(** [a / b] of the source. *)
Definition checked_div (a b : Z) : option Z :=
  if b =? 0 then None else Some (Z.quot a b).

(** [a % b] of the source. *)
Definition checked_rem (a b : Z) : option Z :=
  if b =? 0 then None else Some (Z.rem a b).

Definition inspect {A : Type} (a : A) : {b : A | a = b} :=
  exist _ a eq_refl.

(** ** Numeric helpers *)

(** [abs] for a signed type: [(a < T(0)) ? -a : a]. *)
Definition abs (a : Z) : Z :=
  if a <? 0 then - a else a.

(** [gcd_recur]: the Euclidean recursion, by well-founded recursion on the
    absolute value of the second argument. *)
Equations? gcd_recur (m n : Z) : option Z by wf (Z.abs_nat n) lt :=
  gcd_recur m n with Z.eq_dec n 0 := {
    | left _ => Some (abs m)
    | right _ with inspect (checked_rem m n) := {
        | exist _ None _ => None
        | exist _ (Some r) Hr => gcd_recur n r } }.
Proof.
  unfold checked_rem in Hr.
  destruct (Z.eqb_spec n 0) as [|Hn]; [discriminate|].
  injection Hr as <-.
  pose proof (Z.rem_bound_abs m n Hn).
  apply Nat2Z.inj_lt. rewrite !Zabs2Nat.id_abs. lia.
Qed.

(** [gcd]. *)
Definition gcd (m n : Z) : option Z :=
  if m =? 0 then Some (abs n) else gcd_recur m n.

(** [lcm]. *)
Definition lcm (m n : Z) : option Z :=
  if (m =? 0) || (n =? 0) then Some 0
  else
    g <- gcd m n ;;
    q <- checked_div (abs m) g ;;
    Some (q * abs n).

(** ** The [Fraction] value type *)

Record Fraction : Type := mkFraction { _num : Z; _den : Z }.

(** [normalize1]: make the denominator non-negative. *)
Definition normalize1 (this : Fraction) : Fraction :=
  if _den this <? 0
  then mkFraction (- _num this) (- _den this)
  else this.

(** [normalize2]: divide out the common factor; returns the updated object
    and the common factor. *)
Definition normalize2 (this : Fraction) : option (Fraction * Z) :=
  common <- gcd (_num this) (_den this) ;;
  if (common =? 1) || (common =? 0) then Some (this, common)
  else
    n <- checked_div (_num this) common ;;
    d <- checked_div (_den this) common ;;
    Some (mkFraction n d, common).

(** [normalize]. *)
Definition normalize (this : Fraction) : option (Fraction * Z) :=
  normalize2 (normalize1 this).

(** Constructor [Fraction(num, den)]. *)
Definition Fraction_of (num den : Z) : option Fraction :=
  '(this, _) <- normalize (mkFraction num den) ;;
  Some this.

(** Constructor [Fraction(num)]. *)
Definition Fraction_of_int (num : Z) : Fraction := mkFraction num 1.

(** Default constructor [Fraction()]. *)
Definition Fraction_default : Fraction := mkFraction 0 1.

(** [cross]. *)
Definition cross (this rhs : Fraction) : Z :=
  _num this * _den rhs - _den this * _num rhs.

Definition set_num (this : Fraction) (v : Z) : Fraction :=
  mkFraction v (_den this).

Definition set_den (this : Fraction) (v : Z) : Fraction :=
  mkFraction (_num this) v.

(** ** Comparison operators *)

(** [operator==(const Fraction &lhs, const Z &rhs)]. *)
Definition operator_eq_int (lhs : Fraction) (rhs : Z) : option bool :=
  if (_den lhs =? 1) || (rhs =? 0) then Some (_num lhs =? rhs)
  else
    let lhs2 := lhs in
    let rhs2 := rhs in
    (* std::swap(lhs2._den, rhs2) *)
    let '(lhs2, rhs2) := (set_den lhs2 rhs2, _den lhs2) in
    '(lhs2, _) <- normalize2 lhs2 ;;
    Some (_num lhs2 <? _den lhs2 * rhs2).

(** [operator<(const Fraction &lhs, const Z &rhs)]. *)
Definition operator_lt_int (lhs : Fraction) (rhs : Z) : option bool :=
  if (_den lhs =? 1) || (rhs =? 0) then Some (_num lhs <? rhs)
  else
    let lhs2 := lhs in
    let rhs2 := rhs in
    (* std::swap(lhs2._den, rhs2) *)
    let '(lhs2, rhs2) := (set_den lhs2 rhs2, _den lhs2) in
    '(lhs2, _) <- normalize2 lhs2 ;;
    Some (_num lhs2 <? _den lhs2 * rhs2).

(** [operator<(const Z &lhs, const Fraction &rhs)]. *)
Definition operator_lt_int_l (lhs : Z) (rhs : Fraction) : option bool :=
  if (_den rhs =? 1) || (lhs =? 0) then Some (lhs <? _num rhs)
  else
    let lhs2 := lhs in
    let rhs2 := rhs in
    (* std::swap(rhs2._den, lhs2) *)
    let '(rhs2, lhs2) := (set_den rhs2 lhs2, _den rhs2) in
    '(rhs2, _) <- normalize2 rhs2 ;;
    Some (_den rhs2 * lhs2 <? _num rhs2).

(** [operator==(const Z &lhs, const Fraction &rhs)]. *)
Definition operator_eq_int_l (lhs : Z) (rhs : Fraction) : option bool :=
  operator_eq_int rhs lhs.

(** [operator==(const Fraction &lhs, const Fraction &rhs)]. *)
Definition operator_eq (lhs rhs : Fraction) : option bool :=
  if _den lhs =? _den rhs then Some (_num lhs =? _num rhs)
  else
    let lhs2 := lhs in
    let rhs2 := rhs in
    (* std::swap(lhs2._den, rhs2._num) *)
    let '(lhs2, rhs2) := (set_den lhs2 (_num rhs2), set_num rhs2 (_den lhs2)) in
    '(lhs2, _) <- normalize2 lhs2 ;;
    '(rhs2, _) <- normalize2 rhs2 ;;
    Some (_num lhs2 * _den rhs2 =? _den lhs2 * _num rhs2).

(** [operator<(const Fraction &lhs, const Fraction &rhs)]. *)
Definition operator_lt (lhs rhs : Fraction) : option bool :=
  if _den lhs =? _den rhs then Some (_num lhs <? _num rhs)
  else
    let lhs2 := lhs in
    let rhs2 := rhs in
    (* std::swap(lhs2._den, rhs2._num) *)
    let '(lhs2, rhs2) := (set_den lhs2 (_num rhs2), set_num rhs2 (_den lhs2)) in
    '(lhs2, _) <- normalize2 lhs2 ;;
    '(rhs2, _) <- normalize2 rhs2 ;;
    Some (_num lhs2 * _den rhs2 <? _den lhs2 * _num rhs2).

(** [operator!=], [operator>], [operator>=], [operator<=] on fractions. *)
Definition operator_ne (this rhs : Fraction) : option bool :=
  b <- operator_eq this rhs ;; Some (negb b).

Definition operator_gt (this rhs : Fraction) : option bool :=
  operator_lt rhs this.

Definition operator_ge (this rhs : Fraction) : option bool :=
  b <- operator_lt this rhs ;; Some (negb b).

Definition operator_le (this rhs : Fraction) : option bool :=
  b <- operator_lt rhs this ;; Some (negb b).

(** ** Arithmetic operators *)

(** [reciprocal]. *)
Definition reciprocal (this : Fraction) : Fraction :=
  (* std::swap(this->_num, this->_den) *)
  let this := mkFraction (_den this) (_num this) in
  normalize1 this.

(** [operator*=(Fraction rhs)]. *)
Definition operator_mul_assign (this rhs : Fraction) : option Fraction :=
  (* std::swap(this->_num, rhs._num) *)
  let '(this, rhs) := (set_num this (_num rhs), set_num rhs (_num this)) in
  '(this, _) <- normalize2 this ;;
  '(rhs, _) <- normalize2 rhs ;;
  let this := set_num this (_num this * _num rhs) in
  let this := set_den this (_den this * _den rhs) in
  Some this.

(** [operator*(Fraction lhs, const Fraction &rhs)]. *)
Definition operator_mul (lhs rhs : Fraction) : option Fraction :=
  operator_mul_assign lhs rhs.

(** [operator*=(Z rhs)]. *)
Definition operator_mul_assign_int (this : Fraction) (rhs : Z) : option Fraction :=
  (* std::swap(this->_num, rhs) *)
  let '(this, rhs) := (set_num this rhs, _num this) in
  '(this, _) <- normalize2 this ;;
  let this := set_num this (_num this * rhs) in
  Some this.

(** [operator*(Fraction lhs, const Z &rhs)]. *)
Definition operator_mul_int (lhs : Fraction) (rhs : Z) : option Fraction :=
  operator_mul_assign_int lhs rhs.

(** [operator*(const Z &lhs, Fraction rhs)]. *)
Definition operator_mul_int_l (lhs : Z) (rhs : Fraction) : option Fraction :=
  operator_mul_assign_int rhs lhs.

(** [operator/=(Fraction rhs)]. *)
Definition operator_div_assign (this rhs : Fraction) : option Fraction :=
  (* std::swap(this->_den, rhs._num) *)
  let '(this, rhs) := (set_den this (_num rhs), set_num rhs (_den this)) in
  '(this, _) <- normalize this ;;
  '(rhs, _) <- normalize2 rhs ;;
  let this := set_num this (_num this * _den rhs) in
  let this := set_den this (_den this * _num rhs) in
  Some this.

(** [operator/(Fraction lhs, const Fraction &rhs)]. *)
Definition operator_div (lhs rhs : Fraction) : option Fraction :=
  operator_div_assign lhs rhs.

(** [operator/=(Z rhs)]. *)
Definition operator_div_assign_int (this : Fraction) (rhs : Z) : option Fraction :=
  (* std::swap(this->_den, rhs) *)
  let '(this, rhs) := (set_den this rhs, _den this) in
  '(this, _) <- normalize this ;;
  let this := set_den this (_den this * rhs) in
  Some this.

(** [operator/(Fraction lhs, const Z &rhs)]. *)
Definition operator_div_int (lhs : Fraction) (rhs : Z) : option Fraction :=
  operator_div_assign_int lhs rhs.

(** [operator/(const Z &lhs, Fraction rhs)]. *)
Definition operator_div_int_l (lhs : Z) (rhs : Fraction) : option Fraction :=
  let rhs := reciprocal rhs in
  operator_mul_assign_int rhs lhs.

(** Unary [operator-]. *)
Definition operator_neg (this : Fraction) : Fraction :=
  let res := this in
  set_num res (- _num res).

(** [operator+(const Fraction &rhs)]. *)
Definition operator_add (this rhs : Fraction) : option Fraction :=
  if _den this =? _den rhs then Fraction_of (_num this + _num rhs) (_den this)
  else
    common <- gcd (_den this) (_den rhs) ;;
    if common =? 0
    then Fraction_of (_den rhs * _num this + _den this * _num rhs) 0
    else
      l <- checked_div (_den this) common ;;
      r <- checked_div (_den rhs) common ;;
      let d := _den this * r in
      let n := r * _num this + l * _num rhs in
      Fraction_of n d.

(** [operator-(const Fraction &frac)]. *)
Definition operator_sub (this frac : Fraction) : option Fraction :=
  operator_add this (operator_neg frac).

(** [operator-=(const Fraction &rhs)]. *)
Definition operator_sub_assign (this rhs : Fraction) : option Fraction :=
  if _den this =? _den rhs then
    let this := set_num this (_num this - _num rhs) in
    '(this, _) <- normalize2 this ;;
    Some this
  else
    let other := rhs in
    (* std::swap(this->_den, other._num) *)
    let '(this, other) := (set_den this (_num other), set_num other (_den this)) in
    '(this, common_n) <- normalize2 this ;;
    '(other, common_d) <- normalize2 other ;;
    (* std::swap(this->_den, other._num) *)
    let '(this, other) := (set_den this (_num other), set_num other (_den this)) in
    let this := set_num this (cross this other) in
    let this := set_den this (_den this * _den other) in
    (* std::swap(this->_den, common_d) *)
    let '(this, common_d) := (set_den this common_d, _den this) in
    '(this, _) <- normalize2 this ;;
    let this := set_num this (_num this * common_n) in
    let this := set_den this (_den this * common_d) in
    '(this, _) <- normalize2 this ;;
    Some this.

(** [operator+=(const Fraction &rhs)]. *)
Definition operator_add_assign (this rhs : Fraction) : option Fraction :=
  operator_sub_assign this (operator_neg rhs).

(** [operator-=(const Z &rhs)]. *)
Definition operator_sub_assign_int (this : Fraction) (rhs : Z) : option Fraction :=
  if _den this =? 1 then Some (set_num this (_num this - rhs))
  else
    let other := rhs in
    (* std::swap(this->_den, other) *)
    let '(this, other) := (set_den this other, _den this) in
    '(this, common_n) <- normalize2 this ;;
    (* std::swap(this->_den, other) *)
    let '(this, other) := (set_den this other, _den this) in
    let this := set_num this (_num this - other * _den this) in
    let this := set_num this (_num this * common_n) in
    '(this, _) <- normalize2 this ;;
    Some this.

(** [operator+=(const Z &i)]. *)
Definition operator_add_assign_int (this : Fraction) (i : Z) : option Fraction :=
  operator_sub_assign_int this (- i).

(** [operator+(Fraction frac, const Z &i)]. *)
Definition operator_add_int (frac : Fraction) (i : Z) : option Fraction :=
  operator_add_assign_int frac i.

(** [operator+(const Z &i, Fraction frac)]. *)
Definition operator_add_int_l (i : Z) (frac : Fraction) : option Fraction :=
  operator_add_assign_int frac i.

(** [operator-(const Z &i)]. *)
Definition operator_sub_int (this : Fraction) (i : Z) : option Fraction :=
  operator_add_int this (- i).

(** [operator-(const Z &c, const Fraction &frac)]. *)
Definition operator_sub_int_l (c : Z) (frac : Fraction) : option Fraction :=
  operator_add_int_l c (operator_neg frac).

(** [operator+(int &&c, const Fraction &frac)]. *)
Definition operator_add_rvalue (c : Z) (frac : Fraction) : option Fraction :=
  operator_add_int frac c.

(** [operator-(int &&c, const Fraction &frac)]. *)
Definition operator_sub_rvalue (c : Z) (frac : Fraction) : option Fraction :=
  operator_add_int (operator_neg frac) c.

(** [operator*(int &&c, const Fraction &frac)]. *)
Definition operator_mul_rvalue (c : Z) (frac : Fraction) : option Fraction :=
  operator_mul_int frac c.

(** ** Specification-level notions *)

(** The fraction obtained by dividing both fields by their greatest common
    divisor: the value that [normalize2] leaves in the object. *)
Definition reduce (n d : Z) : Fraction :=
  mkFraction (Z.quot n (Z.gcd n d)) (Z.quot d (Z.gcd n d)).

(** ** Predicates of the data model *)

(** The canonical-form invariant: [den >= 0] and [gcd(|num|, den)] is 0 or 1.
    The greatest common divisor and the absolute value are those of the
    integers ([Z.gcd], [Z.abs]), not the functions of the program, so that
    the predicate says what the fields are and not what the program computes
    on them. *)
Definition canonical_form (f : Fraction) : Prop :=
  0 <= _den f /\
  (Z.gcd (Z.abs (_num f)) (_den f) = 0 \/ Z.gcd (Z.abs (_num f)) (_den f) = 1).

(** A fraction obtained from the two-argument constructor on a non-degenerate
    input (non-zero denominator argument). *)
Definition constructed (f : Fraction) : Prop :=
  exists num den : Z, den <> 0 /\ Fraction_of num den = Some f.

(** One call of [gcd_recur] on [(m, n)] issues the recursive call on
    [(n, m % n)] when [n] is not zero. *)
Inductive gcd_recur_call : Z * Z -> Z * Z -> Prop :=
| gcd_recur_call_intro (m n r : Z) :
    n <> 0 -> checked_rem m n = Some r -> gcd_recur_call (n, r) (m, n).

(** A binary operator on fractions returns, on constructed operands, a
    fraction in canonical form. *)
Definition keeps_canonical (op : Fraction -> Fraction -> option Fraction) : Prop :=
  forall a b : Fraction,
    constructed a -> constructed b ->
    exists r : Fraction, op a b = Some r /\ canonical_form r.

(** The same for an operator between a fraction and a bare integer. *)
Definition keeps_canonical_int (op : Fraction -> Z -> option Fraction) : Prop :=
  forall (a : Fraction) (i : Z),
    constructed a ->
    exists r : Fraction, op a i = Some r /\ canonical_form r.

(** ** Remaining comparison overloads against an integer *)

(** Member [operator>(const Z &rhs)]. *)
Definition operator_gt_int (this : Fraction) (rhs : Z) : option bool :=
  operator_lt_int_l rhs this.

(** Member [operator<=(const Z &rhs)]. *)
Definition operator_le_int (this : Fraction) (rhs : Z) : option bool :=
  b <- operator_lt_int_l rhs this ;; Some (negb b).

(** Member [operator>=(const Z &rhs)]. *)
Definition operator_ge_int (this : Fraction) (rhs : Z) : option bool :=
  b <- operator_lt_int this rhs ;; Some (negb b).

(** [operator>(const Z &lhs, const Fraction &rhs)]. *)
Definition operator_gt_int_l (lhs : Z) (rhs : Fraction) : option bool :=
  operator_lt_int rhs lhs.

(** [operator<=(const Z &lhs, const Fraction &rhs)]. *)
Definition operator_le_int_l (lhs : Z) (rhs : Fraction) : option bool :=
  b <- operator_lt_int rhs lhs ;; Some (negb b).

(** [operator>=(const Z &lhs, const Fraction &rhs)]. *)
Definition operator_ge_int_l (lhs : Z) (rhs : Fraction) : option bool :=
  b <- operator_lt_int_l lhs rhs ;; Some (negb b).

(** ** The rational number denoted by a fraction *)

(** The value of a fraction in the rationals of the Standard Library; it is
    the quotient [num/den] for a positive denominator, the only case in which
    it is used. *)
Definition to_Q (f : Fraction) : Q := Qmake (_num f) (Z.to_pos (_den f)).

(** A comparison returns, and returns [true] exactly when [P] holds. *)
Definition decides (r : option bool) (P : Prop) : Prop :=
  exists b : bool, r = Some b /\ (b = true <-> P).

(** * Properties *)

(** ** The numeric helpers *)

Lemma abs_spec (a : Z) : abs a = Z.abs a.
Proof. unfold abs. destruct (Z.ltb_spec a 0); lia. Qed.

Lemma gcd_rem_step (m n : Z) : Z.gcd n (Z.rem m n) = Z.gcd m n.
Proof.
  destruct (Z.eq_dec n 0) as [->|Hn].
  - rewrite Zquot.Zrem_0_r, Z.gcd_comm. reflexivity.
  - pose proof (Z.quot_rem' m n) as E.
    replace (Z.rem m n) with (m + (- (Z.quot m n)) * n) by lia.
    rewrite Z.gcd_add_mult_diag_r. apply Z.gcd_comm.
Qed.

Lemma checked_rem_Some (m n r : Z) :
  checked_rem m n = Some r -> n <> 0 /\ r = Z.rem m n.
Proof.
  unfold checked_rem. destruct (Z.eqb_spec n 0); [discriminate|].
  intros [= <-]. split; auto.
Qed.

Lemma checked_rem_nonzero (m n : Z) :
  n <> 0 -> checked_rem m n = Some (Z.rem m n).
Proof.
  intros Hn. unfold checked_rem. now destruct (Z.eqb_spec n 0).
Qed.

Lemma checked_div_nonzero (m n : Z) :
  n <> 0 -> checked_div m n = Some (Z.quot m n).
Proof.
  intros Hn. unfold checked_div. now destruct (Z.eqb_spec n 0).
Qed.

Lemma gcd_recur_step_eq (m n : Z) :
  n <> 0 -> gcd_recur m n = gcd_recur n (Z.rem m n).
Proof.
  intros Hn. funelim (gcd_recur m n); try contradiction.
  - destruct (checked_rem_Some _ _ _ Hr) as [_ E]. now rewrite E.
  - pose proof (checked_rem_nonzero m n Hn). congruence.
Qed.

Lemma gcd_recur_base (m : Z) : gcd_recur m 0 = Some (abs m).
Proof. rewrite gcd_recur_equation_1. reflexivity. Qed.

Lemma gcd_recur_spec (m n : Z) : gcd_recur m n = Some (Z.gcd m n).
Proof.
  remember (Z.abs_nat n) as k eqn:Hk.
  revert m n Hk.
  induction k as [k IH] using lt_wf_ind; intros m n Hk.
  destruct (Z.eq_dec n 0) as [->|Hn].
  - rewrite gcd_recur_base, abs_spec, Z.gcd_0_r. reflexivity.
  - rewrite gcd_recur_step_eq by assumption.
    rewrite (IH (Z.abs_nat (Z.rem m n))) with (m := n) (n := Z.rem m n).
    + now rewrite gcd_rem_step.
    + subst k. pose proof (Z.rem_bound_abs m n Hn).
      apply Nat2Z.inj_lt. rewrite !Zabs2Nat.id_abs. lia.
    + reflexivity.
Qed.

Lemma gcd_spec (m n : Z) : gcd m n = Some (Z.gcd m n).
Proof.
  unfold gcd. destruct (Z.eqb_spec m 0) as [->|Hm].
  - rewrite abs_spec. reflexivity.
  - apply gcd_recur_spec.
Qed.

(** ** Closed form of normalization *)

Lemma quot_exact_l (k g : Z) : g <> 0 -> Z.quot (k * g) g = k.
Proof. intros Hg. now apply Z.quot_mul. Qed.

Lemma gcd_quot_l (n d : Z) : Z.quot n (Z.gcd n d) * Z.gcd n d = n.
Proof.
  destruct (Z.eq_dec (Z.gcd n d) 0) as [E|E].
  - rewrite E. apply Z.gcd_eq_0_l in E. subst n. reflexivity.
  - destruct (Z.gcd_divide_l n d) as [k Hk].
    rewrite Hk at 1. now rewrite quot_exact_l.
Qed.

Lemma gcd_quot_r (n d : Z) : Z.quot d (Z.gcd n d) * Z.gcd n d = d.
Proof. rewrite (Z.gcd_comm n d). apply gcd_quot_l. Qed.

Lemma normalize2_spec (this : Fraction) :
  normalize2 this =
  Some (mkFraction (Z.quot (_num this) (Z.gcd (_num this) (_den this)))
                   (Z.quot (_den this) (Z.gcd (_num this) (_den this))),
        Z.gcd (_num this) (_den this)).
Proof.
  unfold normalize2. rewrite gcd_spec. cbn [bind].
  destruct this as [n d]; cbn [_num _den].
  destruct (Z.eqb_spec (Z.gcd n d) 1) as [E1|E1]; cbn [orb].
  - rewrite E1, !Z.quot_1_r. reflexivity.
  - destruct (Z.eqb_spec (Z.gcd n d) 0) as [E0|E0].
    + rewrite E0. pose proof (Z.gcd_eq_0_l _ _ E0). pose proof (Z.gcd_eq_0_r _ _ E0).
      subst. reflexivity.
    + rewrite !checked_div_nonzero by assumption. reflexivity.
Qed.

Lemma normalize_spec (this : Fraction) :
  normalize this =
  Some (mkFraction
          (Z.quot (_num (normalize1 this))
                  (Z.gcd (_num (normalize1 this)) (_den (normalize1 this))))
          (Z.quot (_den (normalize1 this))
                  (Z.gcd (_num (normalize1 this)) (_den (normalize1 this)))),
        Z.gcd (_num (normalize1 this)) (_den (normalize1 this))).
Proof. unfold normalize. apply normalize2_spec. Qed.

Lemma normalize1_nonneg (this : Fraction) : 0 <= _den this -> normalize1 this = this.
Proof. unfold normalize1. destruct (Z.ltb_spec (_den this) 0); [lia|reflexivity]. Qed.

Lemma normalize1_den_nonneg (this : Fraction) : 0 <= _den (normalize1 this).
Proof. unfold normalize1. destruct (Z.ltb_spec (_den this) 0); cbn; lia. Qed.

Lemma quot_0_l (x : Z) : Z.quot 0 x = 0.
Proof. destruct x; reflexivity. Qed.

Lemma Fraction_of_spec (num den : Z) :
  Fraction_of num den =
  Some (let this := normalize1 (mkFraction num den) in
        mkFraction (Z.quot (_num this) (Z.gcd (_num this) (_den this)))
                   (Z.quot (_den this) (Z.gcd (_num this) (_den this)))).
Proof. unfold Fraction_of. rewrite normalize_spec. reflexivity. Qed.

(** ** Greatest common divisor *)

(** C8: for all integers [m] and [n], [gcd m n] returns the non-negative
    greatest common divisor: the result is [>= 0], divides [m] and [n], is
    divisible by every common divisor of [m] and [n]; moreover
    [gcd 0 n = |n|] and [gcd 0 0 = 0]. *)
Theorem gcd_greatest_common_divisor (m n : Z) :
  exists g : Z,
    gcd m n = Some g /\
    0 <= g /\ (g | m) /\ (g | n) /\
    (forall c : Z, (c | m) -> (c | n) -> (c | g)) /\
    gcd 0 n = Some (Z.abs n) /\
    gcd 0 0 = Some 0.
Proof.
  exists (Z.gcd m n). rewrite !gcd_spec.
  split; [reflexivity|].
  split; [apply Z.gcd_nonneg|].
  split; [apply Z.gcd_divide_l|].
  split; [apply Z.gcd_divide_r|].
  split; [intros c Hm Hn; now apply Z.gcd_greatest|].
  split; reflexivity.
Qed.

Lemma gcd_greatest_common_divisor_witness :
  exists g : Z, gcd 12 (-18) = Some g /\ (6 | g).
Proof.
  destruct (gcd_greatest_common_divisor 12 (-18)) as (g & Hg & _ & _ & _ & Hc & _).
  exists g. split; [exact Hg|].
  apply Hc; [exists 2; reflexivity | exists (-3); reflexivity].
Defined.

(** The calls issued by [gcd_recur] form a well-founded relation. *)
Lemma gcd_recur_call_Acc (m n : Z) : Acc gcd_recur_call (m, n).
Proof.
  remember (Z.abs_nat n) as k eqn:Hk.
  revert m n Hk.
  induction k as [k IH] using lt_wf_ind; intros m n Hk.
  constructor. intros [n' r] Hcall.
  inversion Hcall as [m0 n0 r0 Hn Hr]; subst.
  apply checked_rem_Some in Hr. destruct Hr as [_ ->].
  apply (IH (Z.abs_nat (Z.rem m n))); [|reflexivity].
  pose proof (Z.rem_bound_abs m n Hn).
  apply Nat2Z.inj_lt. rewrite !Zabs2Nat.id_abs. lia.
Qed.

(** C9: [gcd_recur m n] terminates for all integers [m] and [n]: when [n] is
    not zero the call continues as [gcd_recur n (m % n)] with
    [|m % n| < |n|], when [n] is zero it returns [abs m]; no chain of
    recursive calls is infinite, and the function returns a value on every
    input. *)
Theorem gcd_recur_terminates (m n : Z) :
  (n <> 0 ->
     checked_rem m n = Some (Z.rem m n) /\
     Z.abs (Z.rem m n) < Z.abs n /\
     gcd_recur m n = gcd_recur n (Z.rem m n)) /\
  gcd_recur m 0 = Some (abs m) /\
  Acc gcd_recur_call (m, n) /\
  exists g : Z, gcd_recur m n = Some g.
Proof.
  split; [|split; [|split]].
  - intros Hn. split; [|split].
    + now apply checked_rem_nonzero.
    + pose proof (Z.rem_bound_abs m n Hn). lia.
    + now apply gcd_recur_step_eq.
  - apply gcd_recur_base.
  - apply gcd_recur_call_Acc.
  - exists (Z.gcd m n). apply gcd_recur_spec.
Qed.

Lemma gcd_recur_terminates_witness :
  Z.abs (Z.rem 48 (-18)) < Z.abs (-18) /\
  gcd_recur 48 (-18) = gcd_recur (-18) (Z.rem 48 (-18)).
Proof.
  destruct (gcd_recur_terminates 48 (-18)) as [Hstep _].
  destruct Hstep as (_ & Hlt & Heq); [discriminate|].
  split; [exact Hlt | exact Heq].
Defined.

(** ** Comparison of a fraction with an integer *)

(** Off the fast path, [operator==] against an integer evaluates the very
    expression of [operator<]. *)
Lemma operator_eq_int_slow_path (lhs : Fraction) (rhs : Z) :
  (_den lhs =? 1) || (rhs =? 0) = false ->
  operator_eq_int lhs rhs = operator_lt_int lhs rhs.
Proof. intros H. unfold operator_eq_int, operator_lt_int. now rewrite H. Qed.

(** On the fast path the comparison is right: [Fraction(4,2) == 2]. *)
Example operator_eq_int_four_halves_two :
  Fraction_of 4 2 = Some (mkFraction 2 1) /\
  operator_eq_int (mkFraction 2 1) 2 = Some true.
Proof. split; vm_compute; reflexivity. Qed.

(** C1: [Fraction(3,2) == 2] is evaluated to [true] by the code although
    [3 * 1] differs from [2 * 2]: the comparison of a fraction with an
    integer does not decide equality of the rational values. *)
Theorem operator_eq_int_three_halves_two :
  Fraction_of 3 2 = Some (mkFraction 3 2) /\
  operator_eq_int (mkFraction 3 2) 2 = Some true /\
  _num (mkFraction 3 2) * 1 <> _den (mkFraction 3 2) * 2.
Proof.
  split; [vm_compute; reflexivity|].
  split; [vm_compute; reflexivity|].
  cbn. discriminate.
Qed.

(** ** Reciprocal *)

(** C10: [reciprocal] on a fraction whose numerator is 0 yields the fraction
    with denominator 0 and numerator equal to the old denominator, unreduced;
    [reciprocal] performs no division, so it cannot fail. *)
Theorem reciprocal_of_zero_numerator (f : Fraction) :
  _num f = 0 -> reciprocal f = mkFraction (_den f) 0.
Proof.
  intros H. unfold reciprocal, normalize1. cbn [_num _den]. rewrite H. reflexivity.
Qed.

Lemma reciprocal_of_zero_numerator_witness :
  _num Fraction_default = 0 /\
  reciprocal Fraction_default = mkFraction 1 0 /\
  reciprocal (mkFraction 0 6) = mkFraction 6 0.
Proof.
  split; [reflexivity|]. split.
  - apply (reciprocal_of_zero_numerator Fraction_default). reflexivity.
  - apply (reciprocal_of_zero_numerator (mkFraction 0 6)). reflexivity.
Defined.

(** ** Division by a zero fraction *)

(** C5: for every fraction [f] and every integer [n], [Fraction(0, n)] is
    constructed without failure and dividing [f] by it, with [operator/=] or
    [operator/], returns (no division by zero is executed) a fraction whose
    denominator is 0. *)
Theorem operator_div_by_zero_fraction (f : Fraction) (n : Z) :
  exists z r : Fraction,
    Fraction_of 0 n = Some z /\
    operator_div_assign f z = Some r /\
    operator_div f z = Some r /\
    _den r = 0.
Proof.
  rewrite Fraction_of_spec.
  eexists. eexists. split; [reflexivity|].
  unfold operator_div, operator_div_assign.
  rewrite normalize_spec, normalize2_spec. cbn [bind].
  repeat split.
  cbn [_num _den set_num set_den].
  assert (E : _num (normalize1 {| _num := 0; _den := n |}) = 0).
  { unfold normalize1. cbn. destruct (n <? 0); reflexivity. }
  rewrite E, quot_0_l. unfold normalize1. cbn. reflexivity.
Qed.

(** ** Arithmetic facts used by the operators *)

Lemma quot_nonneg (a b : Z) : 0 <= a -> 0 <= b -> 0 <= Z.quot a b.
Proof.
  intros Ha Hb. destruct (Z.eq_dec b 0) as [->|Hb0].
  - rewrite Zquot_0_r. lia.
  - apply Z.quot_pos; lia.
Qed.

Lemma gcd_quot_coprime (n d : Z) :
  Z.gcd n d <> 0 ->
  Z.gcd (Z.quot n (Z.gcd n d)) (Z.quot d (Z.gcd n d)) = 1.
Proof.
  intros Hg.
  pose proof (gcd_quot_l n d) as Hn. pose proof (gcd_quot_r n d) as Hd.
  pose proof (Z.gcd_nonneg n d) as Hpos.
  pose proof (Z.gcd_mul_mono_r (Z.quot n (Z.gcd n d)) (Z.quot d (Z.gcd n d)) (Z.gcd n d)) as E.
  rewrite Hn, Hd, (Z.abs_eq (Z.gcd n d)) in E by assumption.
  apply (Z.mul_reg_r _ _ (Z.gcd n d)); [assumption|]. lia.
Qed.

Lemma gcd_quot_cases (n d : Z) :
  Z.gcd (Z.quot n (Z.gcd n d)) (Z.quot d (Z.gcd n d)) = 0 \/
  Z.gcd (Z.quot n (Z.gcd n d)) (Z.quot d (Z.gcd n d)) = 1.
Proof.
  destruct (Z.eq_dec (Z.gcd n d) 0) as [E|E].
  - left. rewrite E, !Zquot_0_r. reflexivity.
  - right. now apply gcd_quot_coprime.
Qed.

Lemma quot_gcd_divide_l (n d : Z) : (Z.quot n (Z.gcd n d) | n).
Proof. exists (Z.gcd n d). pose proof (gcd_quot_l n d). lia. Qed.

Lemma quot_gcd_divide_r (n d : Z) : (Z.quot d (Z.gcd n d) | d).
Proof. exists (Z.gcd n d). pose proof (gcd_quot_r n d). lia. Qed.

Lemma gcd_1_divide (x y x' y' : Z) :
  Z.gcd x y = 1 -> (x' | x) -> (y' | y) -> Z.gcd x' y' = 1.
Proof.
  intros H Hx Hy.
  apply Z.divide_1_r_nonneg; [apply Z.gcd_nonneg|].
  rewrite <- H. apply Z.gcd_greatest.
  - eapply Z.divide_trans; [apply Z.gcd_divide_l | exact Hx].
  - eapply Z.divide_trans; [apply Z.gcd_divide_r | exact Hy].
Qed.

Lemma gcd_1_mul (x1 x2 y1 y2 : Z) :
  Z.gcd x1 y1 = 1 -> Z.gcd x1 y2 = 1 -> Z.gcd x2 y1 = 1 -> Z.gcd x2 y2 = 1 ->
  Z.gcd (x1 * x2) (y1 * y2) = 1.
Proof.
  intros H11 H12 H21 H22.
  apply Z.coprime_mul_l; apply Z.coprime_mul_r; assumption.
Qed.

Lemma canonical_form_intro (f : Fraction) :
  0 <= _den f ->
  Z.gcd (_num f) (_den f) = 0 \/ Z.gcd (_num f) (_den f) = 1 ->
  canonical_form f.
Proof.
  intros Hd Hg. split; [assumption|].
  rewrite Z.gcd_abs_l. exact Hg.
Qed.

Lemma canonical_form_elim (f : Fraction) :
  canonical_form f ->
  0 <= _den f /\ (Z.gcd (_num f) (_den f) = 0 \/ Z.gcd (_num f) (_den f) = 1).
Proof.
  intros [Hd Hg]. split; [assumption|].
  rewrite Z.gcd_abs_l in Hg. exact Hg.
Qed.

(** The result of [normalize2] on a non-negative denominator is canonical. *)
Lemma normalize2_canonical (this r : Fraction) (g : Z) :
  0 <= _den this -> normalize2 this = Some (r, g) -> canonical_form r.
Proof.
  intros Hd. rewrite normalize2_spec. intros [= <- <-].
  apply canonical_form_intro; cbn [_num _den].
  - apply quot_nonneg; [assumption | apply Z.gcd_nonneg].
  - apply gcd_quot_cases.
Qed.

(** Every fraction returned by the two-argument constructor is canonical. *)
Lemma Fraction_of_canonical (num den : Z) (f : Fraction) :
  Fraction_of num den = Some f -> canonical_form f.
Proof.
  unfold Fraction_of, normalize.
  destruct (normalize2 (normalize1 (mkFraction num den))) as [[r g]|] eqn:E;
    cbn [bind]; [|discriminate].
  intros [= <-].
  eapply normalize2_canonical; [|exact E]. apply normalize1_den_nonneg.
Qed.

Lemma Fraction_of_total (num den : Z) : exists f : Fraction, Fraction_of num den = Some f.
Proof. rewrite Fraction_of_spec. eexists. reflexivity. Qed.

(** The constructor keeps the rational value: numerator and denominator are
    both divided by the same non-negative factor, after a common sign flip. *)
Lemma Fraction_of_value (num den : Z) (f : Fraction) :
  Fraction_of num den = Some f -> _num f * den = num * _den f.
Proof.
  rewrite Fraction_of_spec. intros [= <-]. cbn [_num _den].
  set (this := normalize1 (mkFraction num den)).
  pose proof (gcd_quot_l (_num this) (_den this)) as Hn.
  pose proof (gcd_quot_r (_num this) (_den this)) as Hd.
  assert (Hs : _num this * den = num * _den this).
  { unfold this, normalize1. cbn. destruct (den <? 0); cbn; lia. }
  remember (Z.gcd (_num this) (_den this)) as g eqn:Hg.
  remember (Z.quot (_num this) g) as qn eqn:Hqn.
  remember (Z.quot (_den this) g) as qd eqn:Hqd.
  destruct (Z.eq_dec g 0) as [E|E].
  - subst g qn qd. rewrite E, !Zquot_0_r. lia.
  - apply (Z.mul_reg_r _ _ g); [assumption|].
    rewrite <- Hn, <- Hd in Hs. lia.
Qed.

(** ** Comparison of two fractions *)

Lemma some_true (b : bool) : Some b = Some true -> b = true.
Proof. now intros [= ->]. Qed.

Lemma scaled_ltb (x y k : Z) : 0 < k -> (x * k <? y * k) = (x <? y).
Proof.
  intros Hk.
  destruct (Z.ltb_spec x y), (Z.ltb_spec (x * k) (y * k)); try reflexivity; nia.
Qed.

Lemma scaled_eqb (x y k : Z) : 0 < k -> (x * k =? y * k) = (x =? y).
Proof.
  intros Hk.
  destruct (Z.eqb_spec x y), (Z.eqb_spec (x * k) (y * k)); try reflexivity; nia.
Qed.

(** The four quotients formed by the comparison operators, and the factor
    they have in common with the full cross products. *)
Lemma cross_reduction (a b c d : Z) :
  0 < b -> 0 < d ->
  let g1 := Z.gcd a c in
  let g2 := Z.gcd b d in
  (g1 = 0 /\ a = 0 /\ c = 0 \/
   0 < g1 * g2 /\
   a * d = (Z.quot a g1 * Z.quot d g2) * (g1 * g2) /\
   c * b = (Z.quot c g1 * Z.quot b g2) * (g1 * g2)).
Proof.
  intros Hb Hd g1 g2.
  pose proof (gcd_quot_l a c) as Ha. pose proof (gcd_quot_r a c) as Hc.
  pose proof (gcd_quot_l b d) as Hb'. pose proof (gcd_quot_r b d) as Hd'.
  pose proof (Z.gcd_nonneg a c) as H1. pose proof (Z.gcd_nonneg b d) as H2.
  fold g1 in Ha, Hc, H1. fold g2 in Hb', Hd', H2.
  assert (Hg2 : g2 <> 0).
  { intros E. apply Z.gcd_eq_0_l in E. lia. }
  destruct (Z.eq_dec g1 0) as [E|E].
  - left. rewrite E in Ha, Hc. lia.
  - right. split; [nia|].
    split.
    + rewrite <- Ha at 1. rewrite <- Hd' at 1. ring.
    + rewrite <- Hc at 1. rewrite <- Hb' at 1. ring.
Qed.

Lemma operator_lt_spec (x y : Fraction) :
  0 < _den x -> 0 < _den y ->
  operator_lt x y = Some (_num x * _den y <? _num y * _den x).
Proof.
  destruct x as [a b], y as [c d]. cbn [_num _den]. intros Hb Hd.
  unfold operator_lt. cbn [_num _den set_num set_den].
  destruct (Z.eqb_spec b d) as [->|Hne].
  - now rewrite scaled_ltb.
  - rewrite !normalize2_spec. cbn [bind _num _den]. f_equal.
    destruct (cross_reduction a b c d Hb Hd) as [(E & -> & ->) | (Hk & E1 & E2)].
    + cbn. reflexivity.
    + rewrite E1, E2. rewrite scaled_ltb by assumption. reflexivity.
Qed.

Lemma operator_eq_spec (x y : Fraction) :
  0 < _den x -> 0 < _den y ->
  operator_eq x y = Some (_num x * _den y =? _num y * _den x).
Proof.
  destruct x as [a b], y as [c d]. cbn [_num _den]. intros Hb Hd.
  unfold operator_eq. cbn [_num _den set_num set_den].
  destruct (Z.eqb_spec b d) as [->|Hne].
  - now rewrite scaled_eqb.
  - rewrite !normalize2_spec. cbn [bind _num _den]. f_equal.
    destruct (cross_reduction a b c d Hb Hd) as [(E & -> & ->) | (Hk & E1 & E2)].
    + cbn. reflexivity.
    + rewrite E1, E2. rewrite scaled_eqb by assumption. reflexivity.
Qed.

(** A canonical form is determined by the rational value. *)
Lemma canonical_unique (x y : Fraction) :
  0 < _den x -> Z.gcd (_num x) (_den x) = 1 ->
  0 < _den y -> Z.gcd (_num y) (_den y) = 1 ->
  _num x * _den y = _num y * _den x ->
  x = y.
Proof.
  destruct x as [a b], y as [c d]. cbn [_num _den]. intros Hb Hab Hd Hcd Hv.
  assert (Hbd : (b | d)).
  { apply (Z.gauss b a d); [|now rewrite Z.gcd_comm]. exists c. lia. }
  assert (Hdb : (d | b)).
  { apply (Z.gauss d c b); [|now rewrite Z.gcd_comm]. exists a. lia. }
  assert (b = d) by (apply Z.divide_antisym_nonneg; [lia | lia | assumption | assumption]).
  subst d. f_equal. nia.
Qed.

Lemma lt_cross_trans (a1 a2 b1 b2 c1 c2 : Z) :
  0 < a2 -> 0 < b2 -> 0 < c2 ->
  a1 * b2 < b1 * a2 -> b1 * c2 < c1 * b2 -> a1 * c2 < c1 * a2.
Proof.
  intros Ha Hb Hc H1 H2.
  apply (Z.mul_lt_mono_pos_r b2); [assumption|].
  assert (a1 * b2 * c2 < b1 * a2 * c2) by (now apply Z.mul_lt_mono_pos_r).
  assert (b1 * c2 * a2 < c1 * b2 * a2) by (now apply Z.mul_lt_mono_pos_r).
  lia.
Qed.

(** C6: the comparison operators define a total order on canonical fractions
    with positive denominators.  For all such [a], [b] and [c]: the three
    comparisons [a < b], [a == b] and [b < a] all return and exactly one of
    them returns [true]; [a < b] returns [true] exactly when the value of [a]
    is smaller than the value of [b] ([a.num * b.den < b.num * a.den]);
    [a == b] returns [true] exactly when the values are equal, which is
    exactly when [a] and [b] are the same object; [<] is irreflexive and
    transitive. *)
Theorem comparison_trichotomy (a b c : Fraction) :
  canonical_form a -> 0 < _den a ->
  canonical_form b -> 0 < _den b ->
  canonical_form c -> 0 < _den c ->
  exists lt eq gt : bool,
    operator_lt a b = Some lt /\
    operator_eq a b = Some eq /\
    operator_lt b a = Some gt /\
    (lt = true /\ eq = false /\ gt = false \/
     lt = false /\ eq = true /\ gt = false \/
     lt = false /\ eq = false /\ gt = true) /\
    (lt = true <-> _num a * _den b < _num b * _den a) /\
    (eq = true <-> _num a * _den b = _num b * _den a) /\
    (eq = true <-> a = b) /\
    (lt = true -> operator_lt b c = Some true -> operator_lt a c = Some true) /\
    operator_lt a a = Some false.
Proof.
  intros Ca Ha Cb Hb Cc Hc.
  rewrite (operator_lt_spec a b), (operator_eq_spec a b), (operator_lt_spec b a),
    (operator_lt_spec b c), (operator_lt_spec a c), (operator_lt_spec a a)
    by assumption.
  do 3 eexists. repeat (split; [reflexivity|]).
  split.
  { destruct (Z.ltb_spec (_num a * _den b) (_num b * _den a)),
             (Z.eqb_spec (_num a * _den b) (_num b * _den a)),
             (Z.ltb_spec (_num b * _den a) (_num a * _den b));
      try lia; auto. }
  split; [apply Z.ltb_lt|].
  split; [apply Z.eqb_eq|].
  split.
  { rewrite Z.eqb_eq. split; [|intros ->; reflexivity].
    intros Hv.
    apply canonical_form_elim in Ca, Cb.
    destruct Ca as [_ [Ga|Ga]]; [apply Z.gcd_eq_0_r in Ga; lia|].
    destruct Cb as [_ [Gb|Gb]]; [apply Z.gcd_eq_0_r in Gb; lia|].
    now apply canonical_unique. }
  split.
  { intros H1 H2. apply some_true in H2. rewrite Z.ltb_lt in H1, H2.
    f_equal. apply Z.ltb_lt.
    now apply (lt_cross_trans _ _ (_num b) (_den b)). }
  now rewrite Z.ltb_irrefl.
Qed.

Lemma comparison_trichotomy_witness :
  exists lt eq gt : bool,
    operator_lt (mkFraction 1 3) (mkFraction 1 2) = Some lt /\
    operator_eq (mkFraction 1 3) (mkFraction 1 2) = Some eq /\
    operator_lt (mkFraction 1 2) (mkFraction 1 3) = Some gt /\
    (lt = true /\ eq = false /\ gt = false \/
     lt = false /\ eq = true /\ gt = false \/
     lt = false /\ eq = false /\ gt = true) /\
    (lt = true <-> 1 * 2 < 1 * 3) /\
    (eq = true <-> 1 * 2 = 1 * 3) /\
    (eq = true <-> mkFraction 1 3 = mkFraction 1 2) /\
    (lt = true -> operator_lt (mkFraction 1 2) (mkFraction 2 3) = Some true ->
     operator_lt (mkFraction 1 3) (mkFraction 2 3) = Some true) /\
    operator_lt (mkFraction 1 3) (mkFraction 1 3) = Some false.
Proof.
  apply (comparison_trichotomy (mkFraction 1 3) (mkFraction 1 2) (mkFraction 2 3)).
  - split; [cbn; lia | right; vm_compute; reflexivity].
  - cbn; lia.
  - split; [cbn; lia | right; vm_compute; reflexivity].
  - cbn; lia.
  - split; [cbn; lia | right; vm_compute; reflexivity].
  - cbn; lia.
Defined.

(** ** Multiplication by the reciprocal *)

Lemma quot_opp_same (x : Z) : x <> 0 -> Z.quot (- x) x = -1.
Proof. intros H. rewrite Z.quot_opp_l, Z.quot_same by assumption. reflexivity. Qed.

Lemma quot_same_opp (x : Z) : x <> 0 -> Z.quot x (- x) = -1.
Proof. intros H. rewrite Z.quot_opp_r, Z.quot_same by assumption. reflexivity. Qed.

(** C7: for every canonical fraction [f] with non-zero numerator and positive
    denominator, [f * reciprocal(f)] is exactly the fraction [1/1], which is
    [Fraction(1,1)]. *)
Theorem operator_mul_reciprocal (f : Fraction) :
  canonical_form f -> _num f <> 0 -> 0 < _den f ->
  operator_mul f (reciprocal f) = Some (mkFraction 1 1) /\
  Fraction_of 1 1 = Some (mkFraction 1 1).
Proof.
  intros _ Hn Hd. split; [|vm_compute; reflexivity].
  destruct f as [a b]. cbn [_num _den] in Hn, Hd.
  unfold operator_mul, operator_mul_assign, reciprocal, normalize1.
  cbn [_num _den set_num set_den].
  destruct (Z.ltb_spec a 0) as [Ha|Ha]; cbn [_num _den set_num set_den];
    rewrite !normalize2_spec; cbn [bind _num _den set_num set_den].
  - assert (E1 : Z.gcd (- b) b = b) by (rewrite Z.gcd_opp_l, Z.gcd_diag; lia).
    assert (E2 : Z.gcd a (- a) = - a) by (rewrite Z.gcd_opp_r, Z.gcd_diag; lia).
    rewrite E1, E2.
    rewrite quot_opp_same, quot_same_opp, !Z.quot_same by lia. reflexivity.
  - assert (E1 : Z.gcd b b = b) by (rewrite Z.gcd_diag; lia).
    assert (E2 : Z.gcd a a = a) by (rewrite Z.gcd_diag; lia).
    rewrite E1, E2.
    rewrite !Z.quot_same by lia. reflexivity.
Qed.

Lemma operator_mul_reciprocal_witness :
  operator_mul (mkFraction (-3) 4) (reciprocal (mkFraction (-3) 4)) =
    Some (mkFraction 1 1) /\
  Fraction_of 1 1 = Some (mkFraction 1 1).
Proof.
  apply (operator_mul_reciprocal (mkFraction (-3) 4)).
  - split; [cbn; lia | right; vm_compute; reflexivity].
  - cbn; lia.
  - cbn; lia.
Defined.

(** ** Addition *)




(** ** Reduced fractions *)

Lemma normalize2_reduce (this : Fraction) :
  normalize2 this =
  Some (reduce (_num this) (_den this), Z.gcd (_num this) (_den this)).
Proof. apply normalize2_spec. Qed.

Lemma reduce_num (n d : Z) : _num (reduce n d) * Z.gcd n d = n.
Proof. apply gcd_quot_l. Qed.

Lemma reduce_den (n d : Z) : _den (reduce n d) * Z.gcd n d = d.
Proof. apply gcd_quot_r. Qed.

Lemma reduce_den_nonneg (n d : Z) : 0 <= d -> 0 <= _den (reduce n d).
Proof. intros H. apply quot_nonneg; [assumption | apply Z.gcd_nonneg]. Qed.

Lemma reduce_canonical (n d : Z) : 0 <= d -> canonical_form (reduce n d).
Proof.
  intros H. apply canonical_form_intro.
  - now apply reduce_den_nonneg.
  - apply gcd_quot_cases.
Qed.

Lemma reduce_scale (k n d : Z) : 0 < k -> reduce (k * n) (k * d) = reduce n d.
Proof.
  intros Hk. unfold reduce.
  rewrite Z.gcd_mul_mono_l, (Z.abs_eq k) by lia.
  destruct (Z.eq_dec (Z.gcd n d) 0) as [E|E].
  - rewrite E. pose proof (Z.gcd_eq_0_l _ _ E). pose proof (Z.gcd_eq_0_r _ _ E).
    subst. rewrite !Z.mul_0_r. reflexivity.
  - rewrite !Z.quot_mul_cancel_l by lia. reflexivity.
Qed.

Lemma Fraction_of_nonneg (n d : Z) : 0 <= d -> Fraction_of n d = Some (reduce n d).
Proof.
  intros H. rewrite Fraction_of_spec.
  rewrite normalize1_nonneg by (cbn; assumption). reflexivity.
Qed.

(** ** Addition against in-place addition *)

Lemma operator_sub_assign_fast (a b c : Z) :
  operator_sub_assign (mkFraction a b) (mkFraction c b) = Some (reduce (a - c) b).
Proof.
  unfold operator_sub_assign. cbn [_num _den set_num set_den].
  rewrite Z.eqb_refl, normalize2_reduce. reflexivity.
Qed.

Lemma operator_sub_assign_slow (a b c d : Z) :
  b <> d ->
  operator_sub_assign (mkFraction a b) (mkFraction c d) =
  let t := reduce a c in
  let o := reduce b d in
  let u := reduce (_num t * _den o - _num o * _den t) (Z.gcd b d) in
  Some (reduce (_num u * Z.gcd a c) (_den u * (_num o * _den o))).
Proof.
  intros Hne. unfold operator_sub_assign. cbn [_num _den set_num set_den].
  destruct (Z.eqb_spec b d) as [|_]; [contradiction|].
  rewrite !normalize2_reduce. cbn [bind _num _den set_num set_den cross].
  rewrite normalize2_reduce. cbn [bind _num _den set_num set_den].
  rewrite normalize2_reduce. reflexivity.
Qed.

Lemma operator_add_fast (a b c : Z) :
  operator_add (mkFraction a b) (mkFraction c b) = Fraction_of (a + c) b.
Proof. unfold operator_add. cbn [_num _den]. now rewrite Z.eqb_refl. Qed.

Lemma operator_add_slow (a b c d : Z) :
  b <> d -> 0 <= b -> 0 <= d ->
  operator_add (mkFraction a b) (mkFraction c d) =
  let o := reduce b d in
  Fraction_of (_den o * a + _num o * c) (b * _den o).
Proof.
  intros Hne Hb Hd. unfold operator_add. cbn [_num _den].
  destruct (Z.eqb_spec b d) as [|_]; [contradiction|].
  rewrite gcd_spec. cbn [bind].
  assert (Hg : Z.gcd b d <> 0).
  { intros E. pose proof (Z.gcd_eq_0_l _ _ E). pose proof (Z.gcd_eq_0_r _ _ E). lia. }
  destruct (Z.eqb_spec (Z.gcd b d) 0); [contradiction|].
  rewrite !checked_div_nonzero by assumption. reflexivity.
Qed.

Lemma add_paths_num (nt dt no do' nu g1 g3 a c : Z) :
  nt * g1 = a -> dt * g1 = - c -> nu * g3 = nt * do' - no * dt ->
  do' * a + no * c = g3 * (nu * g1).
Proof.
  intros <- Hc Hu. replace c with (- (dt * g1)) by lia.
  replace (g3 * (nu * g1)) with (nu * g3 * g1) by ring.
  rewrite Hu. ring.
Qed.

Lemma add_paths_den (no do' du g2 g3 b : Z) :
  no * g2 = b -> du * g3 = g2 -> b * do' = g3 * (du * (no * do')).
Proof. intros <- <-. ring. Qed.

(** C3: for fractions [a] and [b] (values of the type, whose denominators are
    non-negative), [a + b] returns exactly the fraction, field by field, that
    the in-place [a += b] leaves in a copy of [a]. *)
Theorem operator_add_agrees_with_add_assign (a b : Fraction) :
  0 <= _den a -> 0 <= _den b ->
  exists r : Fraction,
    operator_add a b = Some r /\ operator_add_assign a b = Some r.
Proof.
  destruct a as [a b0], b as [c d]. cbn [_num _den]. intros Hb Hd.
  unfold operator_add_assign, operator_neg, set_num. cbn [_num _den].
  destruct (Z.eq_dec b0 d) as [->|Hne].
  - exists (reduce (a + c) d).
    rewrite operator_add_fast, operator_sub_assign_fast, Fraction_of_nonneg by assumption.
    replace (a - - c) with (a + c) by ring. split; reflexivity.
  - rewrite operator_add_slow, operator_sub_assign_slow by assumption.
    cbv zeta.
    set (t := reduce a (- c)). set (o := reduce b0 d).
    set (u := reduce (_num t * _den o - _num o * _den t) (Z.gcd b0 d)).
    assert (Hg2 : 0 < Z.gcd b0 d).
    { pose proof (Z.gcd_nonneg b0 d).
      assert (Z.gcd b0 d <> 0); [|lia].
      intros E. pose proof (Z.gcd_eq_0_l _ _ E). pose proof (Z.gcd_eq_0_r _ _ E). lia. }
    set (g3 := Z.gcd (_num t * _den o - _num o * _den t) (Z.gcd b0 d)).
    assert (Hg3 : 0 < g3).
    { pose proof (Z.gcd_nonneg (_num t * _den o - _num o * _den t) (Z.gcd b0 d)).
      assert (g3 <> 0); [|unfold g3; lia].
      intros E. apply Z.gcd_eq_0_r in E. lia. }
    assert (HN : _den o * a + _num o * c = g3 * (_num u * Z.gcd a (- c))).
    { apply add_paths_num with (nt := _num t) (dt := _den t).
      - apply reduce_num.
      - apply reduce_den.
      - apply reduce_num. }
    assert (HD : b0 * _den o = g3 * (_den u * (_num o * _den o))).
    { apply add_paths_den with (g2 := Z.gcd b0 d).
      - apply reduce_num.
      - apply reduce_den. }
    assert (Hdo : 0 <= _den o) by (now apply reduce_den_nonneg).
    rewrite Fraction_of_nonneg by nia.
    rewrite HN, HD, reduce_scale by assumption.
    eexists. split; reflexivity.
Qed.

Lemma operator_add_agrees_with_add_assign_witness :
  exists r : Fraction,
    operator_add (mkFraction 1 2) (mkFraction (-5) 6) = Some r /\
    operator_add_assign (mkFraction 1 2) (mkFraction (-5) 6) = Some r.
Proof.
  apply (operator_add_agrees_with_add_assign (mkFraction 1 2) (mkFraction (-5) 6));
    cbn; lia.
Defined.

(** Outside the data model (a negative denominator written into the public
    field), the two forms differ: [operator+] re-establishes the sign through
    the constructor, [operator+=] only reduces. *)
Lemma operator_add_assign_negative_den :
  operator_add (mkFraction 1 (-2)) (mkFraction 1 (-2)) = Some (mkFraction (-1) 1) /\
  operator_add_assign (mkFraction 1 (-2)) (mkFraction 1 (-2)) = Some (mkFraction 1 (-1)).
Proof. split; vm_compute; reflexivity. Qed.

(** ** The canonical-form invariant *)

Lemma constructed_elim (f : Fraction) :
  constructed f -> 0 < _den f /\ Z.gcd (_num f) (_den f) = 1.
Proof.
  intros (num & den & Hden & Hf).
  rewrite Fraction_of_spec in Hf. injection Hf as <-. cbv zeta.
  set (this := normalize1 (mkFraction num den)).
  assert (Hpos : 0 < _den this).
  { unfold this, normalize1. cbn. destruct (Z.ltb_spec den 0); cbn; lia. }
  assert (Hg : Z.gcd (_num this) (_den this) <> 0).
  { intros E. apply Z.gcd_eq_0_r in E. lia. }
  cbn [_num _den]. split.
  - pose proof (gcd_quot_r (_num this) (_den this)) as E.
    pose proof (Z.gcd_nonneg (_num this) (_den this)).
    pose proof (quot_nonneg (_den this) (Z.gcd (_num this) (_den this))).
    nia.
  - now apply gcd_quot_coprime.
Qed.

Lemma constructed_intro (n d : Z) :
  0 < d -> Z.gcd n d = 1 -> constructed (mkFraction n d).
Proof.
  intros Hd Hg. exists n, d. split; [lia|].
  rewrite Fraction_of_nonneg by lia. unfold reduce.
  rewrite Hg, !Z.quot_1_r. reflexivity.
Qed.

Lemma reduce_coprime (n d : Z) :
  Z.gcd n d <> 0 -> Z.gcd (_num (reduce n d)) (_den (reduce n d)) = 1.
Proof. apply gcd_quot_coprime. Qed.

Lemma reduce_zero (n d : Z) : Z.gcd n d = 0 -> reduce n d = mkFraction 0 0.
Proof. intros E. unfold reduce. rewrite E, !Zquot_0_r. reflexivity. Qed.

Lemma reduce_num_divide (n d : Z) : (_num (reduce n d) | n).
Proof. apply quot_gcd_divide_l. Qed.

Lemma reduce_den_divide (n d : Z) : (_den (reduce n d) | d).
Proof. apply quot_gcd_divide_r. Qed.

Lemma reduce_num_nonneg (n d : Z) : 0 <= n -> 0 <= _num (reduce n d).
Proof. intros H. apply quot_nonneg; [assumption | apply Z.gcd_nonneg]. Qed.

Lemma gcd_pos_r (n d : Z) : 0 < d -> Z.gcd n d <> 0.
Proof. intros H E. apply Z.gcd_eq_0_r in E. lia. Qed.

(** Multiplication. *)

Lemma operator_mul_assign_spec (a b c d : Z) :
  operator_mul_assign (mkFraction a b) (mkFraction c d) =
  Some (mkFraction (_num (reduce c b) * _num (reduce a d))
                   (_den (reduce c b) * _den (reduce a d))).
Proof.
  unfold operator_mul_assign. cbn [_num _den set_num set_den].
  rewrite !normalize2_reduce. reflexivity.
Qed.

Lemma operator_mul_assign_canonical (x y : Fraction) :
  0 < _den x -> Z.gcd (_num x) (_den x) = 1 ->
  0 < _den y -> Z.gcd (_num y) (_den y) = 1 ->
  exists r : Fraction, operator_mul_assign x y = Some r /\ canonical_form r.
Proof.
  destruct x as [a b], y as [c d]. cbn [_num _den]. intros Hb Hab Hd Hcd.
  rewrite operator_mul_assign_spec. eexists. split; [reflexivity|].
  apply canonical_form_intro; cbn [_num _den].
  - apply Z.mul_nonneg_nonneg; apply reduce_den_nonneg; lia.
  - right. apply gcd_1_mul.
    + apply reduce_coprime. now apply gcd_pos_r.
    + apply (gcd_1_divide c d); [assumption | apply reduce_num_divide | apply reduce_den_divide].
    + apply (gcd_1_divide a b); [assumption | apply reduce_num_divide | apply reduce_den_divide].
    + apply reduce_coprime. now apply gcd_pos_r.
Qed.

Lemma operator_mul_assign_int_spec (a b z : Z) :
  operator_mul_assign_int (mkFraction a b) z =
  Some (mkFraction (_num (reduce z b) * a) (_den (reduce z b))).
Proof.
  unfold operator_mul_assign_int. cbn [_num _den set_num set_den].
  rewrite normalize2_reduce. reflexivity.
Qed.

Lemma operator_mul_assign_int_canonical (x : Fraction) (z : Z) :
  0 <= _den x -> Z.gcd (_num x) (_den x) = 1 ->
  exists r : Fraction, operator_mul_assign_int x z = Some r /\ canonical_form r.
Proof.
  destruct x as [a b]. cbn [_num _den]. intros Hb Hab.
  rewrite operator_mul_assign_int_spec. eexists. split; [reflexivity|].
  apply canonical_form_intro; cbn [_num _den].
  - now apply reduce_den_nonneg.
  - destruct (Z.eq_dec (Z.gcd z b) 0) as [E|E].
    + left. rewrite (reduce_zero _ _ E). reflexivity.
    + right. apply Z.coprime_mul_l.
      * now apply reduce_coprime.
      * apply (gcd_1_divide a b); [assumption | apply Z.divide_refl | apply reduce_den_divide].
Qed.

(** Division. *)

Lemma normalize1_cases (n d : Z) :
  normalize1 (mkFraction n d) = mkFraction n d /\ 0 <= d \/
  normalize1 (mkFraction n d) = mkFraction (- n) (- d) /\ d < 0.
Proof.
  unfold normalize1. cbn [_num _den].
  destruct (Z.ltb_spec d 0); [right | left]; split; auto.
Qed.

Lemma normalize1_num_divide (n d : Z) : (_num (normalize1 (mkFraction n d)) | n).
Proof.
  destruct (normalize1_cases n d) as [[-> _] | [-> _]]; cbn [_num].
  - apply Z.divide_refl.
  - exists (-1). ring.
Qed.

Lemma normalize1_den_divide (n d : Z) : (_den (normalize1 (mkFraction n d)) | d).
Proof.
  destruct (normalize1_cases n d) as [[-> _] | [-> _]]; cbn [_den].
  - apply Z.divide_refl.
  - exists (-1). ring.
Qed.

Lemma normalize1_gcd (n d : Z) :
  Z.gcd (_num (normalize1 (mkFraction n d))) (_den (normalize1 (mkFraction n d))) =
  Z.gcd n d.
Proof.
  destruct (normalize1_cases n d) as [[-> _] | [-> _]]; cbn [_num _den].
  - reflexivity.
  - now rewrite Z.gcd_opp_l, Z.gcd_opp_r.
Qed.

Lemma normalize_reduce (this : Fraction) :
  normalize this =
  Some (reduce (_num (normalize1 this)) (_den (normalize1 this)),
        Z.gcd (_num (normalize1 this)) (_den (normalize1 this))).
Proof. unfold normalize. apply normalize2_reduce. Qed.

Lemma operator_div_assign_spec (a b c d : Z) :
  operator_div_assign (mkFraction a b) (mkFraction c d) =
  let t := normalize1 (mkFraction a c) in
  Some (mkFraction (_num (reduce (_num t) (_den t)) * _den (reduce b d))
                   (_den (reduce (_num t) (_den t)) * _num (reduce b d))).
Proof.
  unfold operator_div_assign. cbn [_num _den set_num set_den].
  rewrite normalize_reduce, normalize2_reduce. reflexivity.
Qed.

Lemma operator_div_assign_canonical (x y : Fraction) :
  0 < _den x -> Z.gcd (_num x) (_den x) = 1 ->
  0 < _den y -> Z.gcd (_num y) (_den y) = 1 ->
  exists r : Fraction, operator_div_assign x y = Some r /\ canonical_form r.
Proof.
  destruct x as [a b], y as [c d]. cbn [_num _den]. intros Hb Hab Hd Hcd.
  rewrite operator_div_assign_spec. cbv zeta. eexists. split; [reflexivity|].
  set (t := normalize1 (mkFraction a c)).
  apply canonical_form_intro; cbn [_num _den].
  - apply Z.mul_nonneg_nonneg.
    + apply reduce_den_nonneg. apply normalize1_den_nonneg.
    + apply reduce_num_nonneg. lia.
  - destruct (Z.eq_dec (Z.gcd (_num t) (_den t)) 0) as [E|E].
    + left. rewrite (reduce_zero _ _ E). reflexivity.
    + right. apply gcd_1_mul.
      * now apply reduce_coprime.
      * apply (gcd_1_divide a b); [assumption | | apply reduce_num_divide].
        eapply Z.divide_trans; [apply reduce_num_divide | apply normalize1_num_divide].
      * apply (gcd_1_divide d c); [now rewrite Z.gcd_comm | apply reduce_den_divide |].
        eapply Z.divide_trans; [apply reduce_den_divide | apply normalize1_den_divide].
      * rewrite Z.gcd_comm. apply reduce_coprime. now apply gcd_pos_r.
Qed.

Lemma operator_div_assign_int_spec (a b z : Z) :
  operator_div_assign_int (mkFraction a b) z =
  let t := normalize1 (mkFraction a z) in
  Some (mkFraction (_num (reduce (_num t) (_den t)))
                   (_den (reduce (_num t) (_den t)) * b)).
Proof.
  unfold operator_div_assign_int. cbn [_num _den set_num set_den].
  rewrite normalize_reduce. reflexivity.
Qed.

Lemma operator_div_assign_int_canonical (x : Fraction) (z : Z) :
  0 <= _den x -> Z.gcd (_num x) (_den x) = 1 ->
  exists r : Fraction, operator_div_assign_int x z = Some r /\ canonical_form r.
Proof.
  destruct x as [a b]. cbn [_num _den]. intros Hb Hab.
  rewrite operator_div_assign_int_spec. cbv zeta. eexists. split; [reflexivity|].
  set (t := normalize1 (mkFraction a z)).
  apply canonical_form_intro; cbn [_num _den].
  - apply Z.mul_nonneg_nonneg; [|assumption].
    apply reduce_den_nonneg. apply normalize1_den_nonneg.
  - destruct (Z.eq_dec (Z.gcd (_num t) (_den t)) 0) as [E|E].
    + left. rewrite (reduce_zero _ _ E). reflexivity.
    + right. apply Z.coprime_mul_r.
      * now apply reduce_coprime.
      * apply (gcd_1_divide a b); [assumption | | apply Z.divide_refl].
        eapply Z.divide_trans; [apply reduce_num_divide | apply normalize1_num_divide].
Qed.

Lemma reciprocal_coprime (x : Fraction) :
  Z.gcd (_num x) (_den x) = 1 ->
  0 <= _den (reciprocal x) /\ Z.gcd (_num (reciprocal x)) (_den (reciprocal x)) = 1.
Proof.
  destruct x as [a b]. cbn [_num _den]. intros Hab.
  unfold reciprocal. cbn [_num _den]. split.
  - apply normalize1_den_nonneg.
  - rewrite normalize1_gcd, Z.gcd_comm. assumption.
Qed.

(** Addition and subtraction. *)

Lemma operator_add_canonical (x y : Fraction) :
  exists r : Fraction, operator_add x y = Some r /\ canonical_form r.
Proof.
  assert (H : exists n d : Z, operator_add x y = Fraction_of n d).
  { unfold operator_add.
    destruct (_den x =? _den y); [eauto|].
    rewrite gcd_spec. cbn [bind].
    destruct (Z.eqb_spec (Z.gcd (_den x) (_den y)) 0) as [E|E]; [eauto|].
    rewrite !checked_div_nonzero by assumption. cbn [bind]. eauto. }
  destruct H as (n & d & ->).
  destruct (Fraction_of_total n d) as [r Hr].
  exists r. split; [assumption|]. eapply Fraction_of_canonical; eassumption.
Qed.

Lemma operator_sub_assign_canonical (x y : Fraction) :
  0 <= _den x -> 0 <= _den y ->
  exists r : Fraction, operator_sub_assign x y = Some r /\ canonical_form r.
Proof.
  destruct x as [a b], y as [c d]. cbn [_num _den]. intros Hb Hd.
  destruct (Z.eq_dec b d) as [->|Hne].
  - rewrite operator_sub_assign_fast. eexists. split; [reflexivity|].
    now apply reduce_canonical.
  - rewrite operator_sub_assign_slow by assumption. cbv zeta.
    eexists. split; [reflexivity|].
    apply reduce_canonical.
    apply Z.mul_nonneg_nonneg; [|apply Z.mul_nonneg_nonneg].
    + apply reduce_den_nonneg. apply Z.gcd_nonneg.
    + now apply reduce_num_nonneg.
    + now apply reduce_den_nonneg.
Qed.

Lemma operator_sub_assign_int_spec (a b z : Z) :
  operator_sub_assign_int (mkFraction a b) z =
  if b =? 1 then Some (mkFraction (a - z) b)
  else
    let t := reduce a z in
    Some (reduce ((_num t - _den t * b) * Z.gcd a z) b).
Proof.
  unfold operator_sub_assign_int. cbn [_num _den set_num set_den].
  destruct (b =? 1); [reflexivity|].
  rewrite normalize2_reduce. cbn [bind _num _den set_num set_den].
  rewrite normalize2_reduce. reflexivity.
Qed.

Lemma operator_sub_assign_int_canonical (x : Fraction) (z : Z) :
  0 <= _den x ->
  exists r : Fraction, operator_sub_assign_int x z = Some r /\ canonical_form r.
Proof.
  destruct x as [a b]. cbn [_num _den]. intros Hb.
  rewrite operator_sub_assign_int_spec.
  destruct (Z.eqb_spec b 1) as [->|Hne].
  - eexists. split; [reflexivity|].
    apply canonical_form_intro; cbn [_num _den]; [lia|].
    right. apply Z.gcd_1_r.
  - cbv zeta. eexists. split; [reflexivity|]. now apply reduce_canonical.
Qed.

Lemma operator_neg_constructed (x : Fraction) :
  constructed x -> constructed (operator_neg x).
Proof.
  intros H. apply constructed_elim in H. destruct H as [Hd Hg].
  destruct x as [a b]. cbn [_num _den] in *.
  unfold operator_neg, set_num. cbn [_num _den].
  apply constructed_intro; [assumption|]. now rewrite Z.gcd_opp_l.
Qed.

(** C2: the canonical-form invariant [den >= 0] and [gcd(|num|, den)] in
    [{0, 1}] (the greatest common divisor of the integers, with which the
    program's own [gcd] and [abs] agree on every canonical fraction) holds
    for every fraction constructed from a non-degenerate input
    (non-zero denominator argument), for the one-argument and default
    constructors, and for the result of every arithmetic operation (all
    overloads of [+], [-], [*], [/], their assignment forms, unary minus and
    [reciprocal]) applied to such fractions; every one of these operations
    returns a result.  In particular [Fraction(1,-2)] is [num = -1],
    [den = 2]. *)
Theorem canonical_form_invariant :
  (forall num den : Z,
     den <> 0 ->
     exists f : Fraction, Fraction_of num den = Some f /\ canonical_form f) /\
  (forall num : Z, canonical_form (Fraction_of_int num)) /\
  canonical_form Fraction_default /\
  (keeps_canonical operator_add /\ keeps_canonical operator_sub /\
   keeps_canonical operator_mul /\ keeps_canonical operator_div /\
   keeps_canonical operator_add_assign /\ keeps_canonical operator_sub_assign /\
   keeps_canonical operator_mul_assign /\ keeps_canonical operator_div_assign) /\
  (keeps_canonical_int operator_add_int /\ keeps_canonical_int operator_sub_int /\
   keeps_canonical_int operator_mul_int /\ keeps_canonical_int operator_div_int /\
   keeps_canonical_int operator_add_assign_int /\
   keeps_canonical_int operator_sub_assign_int /\
   keeps_canonical_int operator_mul_assign_int /\
   keeps_canonical_int operator_div_assign_int) /\
  (keeps_canonical_int (fun f i => operator_add_int_l i f) /\
   keeps_canonical_int (fun f i => operator_sub_int_l i f) /\
   keeps_canonical_int (fun f i => operator_mul_int_l i f) /\
   keeps_canonical_int (fun f i => operator_div_int_l i f) /\
   keeps_canonical_int (fun f i => operator_add_rvalue i f) /\
   keeps_canonical_int (fun f i => operator_sub_rvalue i f) /\
   keeps_canonical_int (fun f i => operator_mul_rvalue i f)) /\
  (forall a : Fraction,
     constructed a ->
     canonical_form (operator_neg a) /\ canonical_form (reciprocal a)) /\
  Fraction_of 1 (-2) = Some (mkFraction (-1) 2) /\
  (forall f : Fraction,
     canonical_form f ->
     gcd (abs (_num f)) (_den f) = Some 0 \/ gcd (abs (_num f)) (_den f) = Some 1).
Proof.
  assert (Hneg : forall a, constructed a -> 0 <= _den (operator_neg a)).
  { intros a Ha. apply operator_neg_constructed, constructed_elim in Ha. lia. }
  assert (Hden : forall a, constructed a -> 0 <= _den a).
  { intros a Ha. apply constructed_elim in Ha. lia. }
  split.
  { intros num den _. destruct (Fraction_of_total num den) as [f Hf].
    exists f. split; [assumption|]. eapply Fraction_of_canonical; eassumption. }
  split.
  { intros num. apply canonical_form_intro; cbn; [lia|]. right. apply Z.gcd_1_r. }
  split.
  { apply canonical_form_intro; cbn; [lia|]. right. reflexivity. }
  split.
  { repeat split; intros a b Ha Hb.
    - apply operator_add_canonical.
    - apply operator_add_canonical.
    - apply constructed_elim in Ha, Hb.
      apply operator_mul_assign_canonical; tauto.
    - apply constructed_elim in Ha, Hb.
      apply operator_div_assign_canonical; tauto.
    - apply operator_sub_assign_canonical; auto.
    - apply operator_sub_assign_canonical; auto.
    - apply constructed_elim in Ha, Hb.
      apply operator_mul_assign_canonical; tauto.
    - apply constructed_elim in Ha, Hb.
      apply operator_div_assign_canonical; tauto. }
  split.
  { repeat split; intros a i Ha.
    - apply operator_sub_assign_int_canonical; auto.
    - apply operator_sub_assign_int_canonical; auto.
    - apply constructed_elim in Ha.
      apply operator_mul_assign_int_canonical; [lia | tauto].
    - apply constructed_elim in Ha.
      apply operator_div_assign_int_canonical; [lia | tauto].
    - apply operator_sub_assign_int_canonical; auto.
    - apply operator_sub_assign_int_canonical; auto.
    - apply constructed_elim in Ha.
      apply operator_mul_assign_int_canonical; [lia | tauto].
    - apply constructed_elim in Ha.
      apply operator_div_assign_int_canonical; [lia | tauto]. }
  split.
  { repeat split; intros a i Ha.
    - apply operator_sub_assign_int_canonical; auto.
    - apply operator_sub_assign_int_canonical; auto.
    - apply constructed_elim in Ha.
      apply operator_mul_assign_int_canonical; [lia | tauto].
    - apply constructed_elim in Ha. destruct Ha as [_ Hg].
      apply reciprocal_coprime in Hg.
      apply operator_mul_assign_int_canonical; tauto.
    - apply operator_sub_assign_int_canonical; auto.
    - apply operator_sub_assign_int_canonical; auto.
    - apply constructed_elim in Ha.
      apply operator_mul_assign_int_canonical; [lia | tauto]. }
  split.
  { intros a Ha. split.
    - apply operator_neg_constructed, constructed_elim in Ha.
      apply canonical_form_intro; [lia | tauto].
    - apply constructed_elim in Ha. destruct Ha as [_ Hg].
      apply reciprocal_coprime in Hg.
      apply canonical_form_intro; tauto. }
  split; [vm_compute; reflexivity|].
  intros f [_ Hg]. rewrite gcd_spec, abs_spec.
  destruct Hg as [-> | ->]; auto.
Qed.

Lemma canonical_form_invariant_witness :
  (exists f : Fraction, Fraction_of 6 (-4) = Some f /\ canonical_form f) /\
  Fraction_of 6 (-4) = Some (mkFraction (-3) 2) /\
  ~ canonical_form (mkFraction (-6) 4) /\
  (exists r : Fraction,
     operator_div (mkFraction 2 3) (mkFraction 4 9) = Some r /\ canonical_form r) /\
  canonical_form (reciprocal (mkFraction (-2) 3)).
Proof.
  destruct canonical_form_invariant
    as (Hctor & _ & _ & (_ & _ & _ & Hdiv & _) & _ & _ & Hunary & _).
  split; [apply Hctor; lia|].
  split; [vm_compute; reflexivity|].
  split; [intros [_ [H | H]]; vm_compute in H; discriminate|].
  split.
  - apply Hdiv.
    + exists 2, 3. split; [lia | vm_compute; reflexivity].
    + exists 4, 9. split; [lia | vm_compute; reflexivity].
  - apply Hunary. exists (-2), 3. split; [lia | vm_compute; reflexivity].
Defined.

(** The sign half of the invariant needs no coprimality: every operation
    returns a non-negative denominator as soon as its operands have one, and
    every constructor returns one.  A fraction with a negative denominator is
    therefore not a value that the interface of the type produces. *)
Lemma denominator_nonneg_preserved (x y r : Fraction) (i : Z) :
  0 <= _den x -> 0 <= _den y ->
  (forall n d : Z, Fraction_of n d = Some r -> 0 <= _den r) /\
  (operator_add x y = Some r -> 0 <= _den r) /\
  (operator_sub x y = Some r -> 0 <= _den r) /\
  (operator_mul_assign x y = Some r -> 0 <= _den r) /\
  (operator_div_assign x y = Some r -> 0 <= _den r) /\
  (operator_sub_assign x y = Some r -> 0 <= _den r) /\
  (operator_add_assign x y = Some r -> 0 <= _den r) /\
  (operator_mul_assign_int x i = Some r -> 0 <= _den r) /\
  (operator_div_assign_int x i = Some r -> 0 <= _den r) /\
  (operator_sub_assign_int x i = Some r -> 0 <= _den r) /\
  (operator_div_int_l i x = Some r -> 0 <= _den r) /\
  0 <= _den (operator_neg x) /\
  0 <= _den (reciprocal x).
Proof.
  intros Hx Hy.
  assert (Hadd : forall u v, operator_add u v = Some r -> 0 <= _den r).
  { intros u v H. destruct (operator_add_canonical u v) as (r' & Hr & Hc).
    rewrite H in Hr. injection Hr as <-. apply Hc. }
  assert (Hsub : forall u v, 0 <= _den u -> 0 <= _den v ->
                             operator_sub_assign u v = Some r -> 0 <= _den r).
  { intros u v Hu Hv H.
    destruct (operator_sub_assign_canonical u v Hu Hv) as (r' & Hr & Hc).
    rewrite H in Hr. injection Hr as <-. apply Hc. }
  assert (Hmuli : forall u, 0 <= _den u ->
                            operator_mul_assign_int u i = Some r -> 0 <= _den r).
  { intros [a b] Hu. cbn [_den] in Hu. rewrite operator_mul_assign_int_spec.
    intros [= <-]. cbn [_den]. now apply reduce_den_nonneg. }
  destruct x as [a b], y as [c d]. cbn [_num _den] in Hx, Hy.
  split; [intros n d' H; apply (Fraction_of_canonical _ _ _ H)|].
  split; [apply Hadd|].
  split; [apply Hadd|].
  split.
  { rewrite operator_mul_assign_spec. intros [= <-]. cbn [_den].
    apply Z.mul_nonneg_nonneg; now apply reduce_den_nonneg. }
  split.
  { rewrite operator_div_assign_spec. cbv zeta. intros [= <-]. cbn [_den].
    apply Z.mul_nonneg_nonneg.
    - apply reduce_den_nonneg, normalize1_den_nonneg.
    - now apply reduce_num_nonneg. }
  split; [now apply Hsub|].
  split; [now apply Hsub|].
  split; [now apply Hmuli|].
  split.
  { rewrite operator_div_assign_int_spec. cbv zeta. intros [= <-]. cbn [_den].
    apply Z.mul_nonneg_nonneg; [|assumption].
    apply reduce_den_nonneg, normalize1_den_nonneg. }
  split.
  { intros H. destruct (operator_sub_assign_int_canonical (mkFraction a b) i Hx)
      as (r' & Hr & Hc).
    rewrite H in Hr. injection Hr as <-. apply Hc. }
  split.
  { apply Hmuli. unfold reciprocal. apply normalize1_den_nonneg. }
  split; [exact Hx|].
  unfold reciprocal. apply normalize1_den_nonneg.
Qed.

(** * Further properties of the header *)

(** ** Least common multiple *)

Lemma lcm_spec (m n : Z) : lcm m n = Some (Z.lcm m n).
Proof.
  unfold lcm.
  destruct (Z.eqb_spec m 0) as [->|Hm]; [now rewrite Z.lcm_0_l|].
  destruct (Z.eqb_spec n 0) as [->|Hn]; cbn [orb]; [now rewrite Z.lcm_0_r|].
  rewrite gcd_spec. cbn [bind].
  assert (Hg : Z.gcd m n <> 0) by (intros E; apply Z.gcd_eq_0_l in E; lia).
  rewrite checked_div_nonzero by assumption. cbn [bind]. f_equal.
  rewrite !abs_spec. unfold Z.lcm.
  pose proof (Z.gcd_nonneg m n) as Hpos.
  destruct (Z.gcd_divide_l m n) as [m1 Hm1].
  destruct (Z.gcd_divide_r m n) as [n1 Hn1].
  remember (Z.gcd m n) as g eqn:Eg. clear Eg Hm Hn. subst m n.
  rewrite Z.div_mul by assumption.
  rewrite !Z.abs_mul, (Z.abs_eq g), Z.quot_mul by assumption. ring.
Qed.

(** X1: for all integers [m] and [n], [lcm m n] returns the non-negative
    least common multiple: it is a multiple of [m] and of [n], it divides
    every common multiple, it is 0 as soon as one argument is 0, and its
    product with [gcd m n] is [|m * n|]. *)
Theorem lcm_least_common_multiple (m n : Z) :
  exists l : Z,
    lcm m n = Some l /\
    0 <= l /\ (m | l) /\ (n | l) /\
    (forall c : Z, (m | c) -> (n | c) -> (l | c)) /\
    (m = 0 \/ n = 0 -> l = 0) /\
    (forall g : Z, gcd m n = Some g -> l * g = Z.abs (m * n)).
Proof.
  exists (Z.lcm m n). rewrite lcm_spec.
  split; [reflexivity|].
  split; [apply Z.lcm_nonneg|].
  split; [apply Z.divide_lcm_l|].
  split; [apply Z.divide_lcm_r|].
  split; [intros c; apply Z.lcm_least|].
  split.
  - intros [-> | ->]; [apply Z.lcm_0_l | apply Z.lcm_0_r].
  - intros g. rewrite gcd_spec. intros [= <-].
    destruct (Z.eq_dec (Z.gcd m n) 0) as [E|E].
    + pose proof (Z.gcd_eq_0_l _ _ E). subst m. rewrite E. cbn. lia.
    + unfold Z.lcm.
      pose proof (Z.gcd_nonneg m n) as Hpos.
      destruct (Z.gcd_divide_l m n) as [m1 Hm1].
      destruct (Z.gcd_divide_r m n) as [n1 Hn1].
      remember (Z.gcd m n) as g eqn:Eg. clear Eg. subst m n.
      rewrite Z.div_mul by assumption.
      rewrite !Z.abs_mul, (Z.abs_eq g) by assumption. ring.
Qed.

Lemma lcm_least_common_multiple_witness :
  exists l : Z, lcm 4 (-6) = Some l /\ (l | 24) /\ l * 2 = 24.
Proof.
  destruct (lcm_least_common_multiple 4 (-6)) as (l & Hl & _ & _ & _ & Hc & _ & Hg).
  exists l. split; [exact Hl|]. split.
  - apply Hc; [exists 6; reflexivity | exists (-4); reflexivity].
  - apply (Hg 2). vm_compute. reflexivity.
Defined.

(** ** Comparison with an integer *)

Lemma reduce_cross_ltb (a r b : Z) :
  r <> 0 ->
  (_num (reduce a r) <? _den (reduce a r) * b) = (a <? r * b).
Proof.
  intros Hr.
  pose proof (reduce_num a r) as Hn. pose proof (reduce_den a r) as Hd.
  pose proof (Z.gcd_nonneg a r) as Hpos.
  assert (Hg : 0 < Z.gcd a r).
  { assert (Z.gcd a r <> 0); [|lia]. intros E. apply Z.gcd_eq_0_r in E. lia. }
  rewrite <- (scaled_ltb _ _ (Z.gcd a r)) by assumption.
  rewrite Hn. f_equal.
  replace (r * b) with (_den (reduce a r) * Z.gcd a r * b) by (now rewrite Hd).
  ring.
Qed.

Lemma reduce_cross_gtb (a l b : Z) :
  l <> 0 ->
  (_den (reduce a l) * b <? _num (reduce a l)) = (l * b <? a).
Proof.
  intros Hl.
  pose proof (reduce_num a l) as Hn. pose proof (reduce_den a l) as Hd.
  pose proof (Z.gcd_nonneg a l) as Hpos.
  assert (Hg : 0 < Z.gcd a l).
  { assert (Z.gcd a l <> 0); [|lia]. intros E. apply Z.gcd_eq_0_r in E. lia. }
  rewrite <- (scaled_ltb _ _ (Z.gcd a l)) by assumption.
  rewrite Hn. f_equal.
  replace (l * b) with (_den (reduce a l) * Z.gcd a l * b) by (now rewrite Hd).
  ring.
Qed.

Lemma operator_lt_int_spec (f : Fraction) (i : Z) :
  operator_lt_int f i = Some (_num f <? i * _den f).
Proof.
  destruct f as [a b]. unfold operator_lt_int. cbn [_num _den set_den].
  destruct (Z.eqb_spec b 1) as [->|Hb]; cbn [orb].
  - now rewrite Z.mul_1_r.
  - destruct (Z.eqb_spec i 0) as [->|Hi]; [reflexivity|].
    rewrite normalize2_reduce. cbn [bind _num _den].
    now rewrite reduce_cross_ltb.
Qed.

Lemma operator_lt_int_l_spec (i : Z) (f : Fraction) :
  operator_lt_int_l i f = Some (i * _den f <? _num f).
Proof.
  destruct f as [a b]. unfold operator_lt_int_l. cbn [_num _den set_den].
  destruct (Z.eqb_spec b 1) as [->|Hb]; cbn [orb].
  - now rewrite Z.mul_1_r.
  - destruct (Z.eqb_spec i 0) as [->|Hi]; [reflexivity|].
    rewrite normalize2_reduce. cbn [bind _num _den].
    now rewrite reduce_cross_gtb.
Qed.

(** ** Comparisons and the rational order *)

Lemma to_Q_lt (x y : Fraction) :
  0 < _den x -> 0 < _den y ->
  (to_Q x < to_Q y)%Q <-> _num x * _den y < _num y * _den x.
Proof.
  intros Hx Hy. unfold Qlt, to_Q. cbn [Qnum Qden].
  rewrite !Z2Pos.id by assumption. reflexivity.
Qed.

Lemma to_Q_eq (x y : Fraction) :
  0 < _den x -> 0 < _den y ->
  (to_Q x == to_Q y)%Q <-> _num x * _den y = _num y * _den x.
Proof.
  intros Hx Hy. unfold Qeq, to_Q. cbn [Qnum Qden].
  rewrite !Z2Pos.id by assumption. reflexivity.
Qed.

Lemma to_Q_int (i : Z) : to_Q (Fraction_of_int i) = inject_Z i.
Proof. reflexivity. Qed.

Lemma decides_ltb (a b : Z) (P : Prop) : (a < b <-> P) -> decides (Some (a <? b)) P.
Proof. intros H. exists (a <? b). split; [reflexivity|]. now rewrite Z.ltb_lt. Qed.

Lemma decides_eqb (a b : Z) (P : Prop) : (a = b <-> P) -> decides (Some (a =? b)) P.
Proof. intros H. exists (a =? b). split; [reflexivity|]. now rewrite Z.eqb_eq. Qed.

Lemma decides_negb (r : option bool) (P : Prop) :
  decides r P -> decides (b <- r ;; Some (negb b)) (~ P).
Proof.
  intros (b & -> & Hb). exists (negb b). split; [reflexivity|].
  destruct b; cbn; intuition congruence.
Qed.

Lemma decides_iff (r : option bool) (P P' : Prop) :
  (P <-> P') -> decides r P -> decides r P'.
Proof. intros H (b & Hr & Hb). exists b. split; [assumption|]. now rewrite Hb. Qed.

Lemma operator_lt_decides (x y : Fraction) :
  0 < _den x -> 0 < _den y -> decides (operator_lt x y) (to_Q x < to_Q y)%Q.
Proof.
  intros Hx Hy. rewrite operator_lt_spec by assumption.
  apply decides_ltb. symmetry. now apply to_Q_lt.
Qed.

Lemma operator_eq_decides (x y : Fraction) :
  0 < _den x -> 0 < _den y -> decides (operator_eq x y) (to_Q x == to_Q y)%Q.
Proof.
  intros Hx Hy. rewrite operator_eq_spec by assumption.
  apply decides_eqb. symmetry. now apply to_Q_eq.
Qed.

(** X2: on fractions with positive denominators the six comparison
    operators between fractions all return and decide the order of the
    rational values: [<] and [>] the strict order, [<=] and [>=] the large
    order, [==] and [!=] equality and difference. *)
Theorem fraction_comparisons_decide_order (x y : Fraction) :
  0 < _den x -> 0 < _den y ->
  decides (operator_lt x y) (to_Q x < to_Q y)%Q /\
  decides (operator_gt x y) (to_Q y < to_Q x)%Q /\
  decides (operator_le x y) (to_Q x <= to_Q y)%Q /\
  decides (operator_ge x y) (to_Q y <= to_Q x)%Q /\
  decides (operator_eq x y) (to_Q x == to_Q y)%Q /\
  decides (operator_ne x y) (~ to_Q x == to_Q y)%Q.
Proof.
  intros Hx Hy.
  split; [now apply operator_lt_decides|].
  split; [now apply operator_lt_decides|].
  split.
  { apply (decides_iff _ (~ to_Q y < to_Q x)%Q).
    - split; [apply Qnot_lt_le | apply Qle_not_lt].
    - apply decides_negb. now apply operator_lt_decides. }
  split.
  { apply (decides_iff _ (~ to_Q x < to_Q y)%Q).
    - split; [apply Qnot_lt_le | apply Qle_not_lt].
    - apply decides_negb. now apply operator_lt_decides. }
  split; [now apply operator_eq_decides|].
  apply decides_negb. now apply operator_eq_decides.
Qed.

Lemma fraction_comparisons_decide_order_witness :
  decides (operator_le (mkFraction 1 2) (mkFraction 2 3))
          (to_Q (mkFraction 1 2) <= to_Q (mkFraction 2 3))%Q.
Proof.
  destruct (fraction_comparisons_decide_order (mkFraction 1 2) (mkFraction 2 3))
    as (_ & _ & H & _); [cbn; lia | cbn; lia | exact H].
Defined.

Lemma to_Q_lt_int (f : Fraction) (i : Z) :
  0 < _den f -> (to_Q f < inject_Z i)%Q <-> _num f < i * _den f.
Proof.
  intros Hf. unfold Qlt, to_Q, inject_Z. cbn [Qnum Qden].
  rewrite Z2Pos.id by assumption. lia.
Qed.

Lemma to_Q_gt_int (f : Fraction) (i : Z) :
  0 < _den f -> (inject_Z i < to_Q f)%Q <-> i * _den f < _num f.
Proof.
  intros Hf. unfold Qlt, to_Q, inject_Z. cbn [Qnum Qden].
  rewrite Z2Pos.id by assumption. lia.
Qed.

Lemma to_Q_eq_int (f : Fraction) (i : Z) :
  0 < _den f -> (to_Q f == inject_Z i)%Q <-> _num f = i * _den f.
Proof.
  intros Hf. unfold Qeq, to_Q, inject_Z. cbn [Qnum Qden].
  rewrite Z2Pos.id by assumption. lia.
Qed.

Lemma operator_lt_int_decides (f : Fraction) (i : Z) :
  0 < _den f -> decides (operator_lt_int f i) (to_Q f < inject_Z i)%Q.
Proof.
  intros Hf. rewrite operator_lt_int_spec.
  apply decides_ltb. symmetry. now apply to_Q_lt_int.
Qed.

Lemma operator_lt_int_l_decides (i : Z) (f : Fraction) :
  0 < _den f -> decides (operator_lt_int_l i f) (inject_Z i < to_Q f)%Q.
Proof.
  intros Hf. rewrite operator_lt_int_l_spec.
  apply decides_ltb. symmetry. now apply to_Q_gt_int.
Qed.

(** X3: on a fraction with positive denominator, the ordering operators
    against a bare integer, in both operand orders ([f < i], [i < f],
    [f > i], [f <= i], [f >= i], [i > f], [i <= f], [i >= f]), all return and
    decide the order between the rational value of [f] and [i]. *)
Theorem integer_comparisons_decide_order (f : Fraction) (i : Z) :
  0 < _den f ->
  decides (operator_lt_int f i) (to_Q f < inject_Z i)%Q /\
  decides (operator_lt_int_l i f) (inject_Z i < to_Q f)%Q /\
  decides (operator_gt_int f i) (inject_Z i < to_Q f)%Q /\
  decides (operator_le_int f i) (to_Q f <= inject_Z i)%Q /\
  decides (operator_ge_int f i) (inject_Z i <= to_Q f)%Q /\
  decides (operator_gt_int_l i f) (to_Q f < inject_Z i)%Q /\
  decides (operator_le_int_l i f) (inject_Z i <= to_Q f)%Q /\
  decides (operator_ge_int_l i f) (to_Q f <= inject_Z i)%Q.
Proof.
  intros Hf.
  pose proof (operator_lt_int_decides f i Hf) as Hlt.
  pose proof (operator_lt_int_l_decides i f Hf) as Hgt.
  assert (Hle : forall p q : Q, (~ p < q)%Q <-> (q <= p)%Q).
  { intros p q. split; [apply Qnot_lt_le | apply Qle_not_lt]. }
  split; [exact Hlt|].
  split; [exact Hgt|].
  split; [exact Hgt|].
  split; [apply (decides_iff _ _ _ (Hle _ _)), decides_negb, Hgt|].
  split; [apply (decides_iff _ _ _ (Hle _ _)), decides_negb, Hlt|].
  split; [exact Hlt|].
  split; [apply (decides_iff _ _ _ (Hle _ _)), decides_negb, Hlt|].
  apply (decides_iff _ _ _ (Hle _ _)), decides_negb, Hgt.
Qed.

Lemma integer_comparisons_decide_order_witness :
  decides (operator_lt_int_l 2 (mkFraction 5 2)) (inject_Z 2 < to_Q (mkFraction 5 2))%Q.
Proof.
  destruct (integer_comparisons_decide_order (mkFraction 5 2) 2) as (_ & H & _);
    [cbn; lia | exact H].
Defined.

(** X4: [operator==] between a fraction with positive denominator and an
    integer decides equality of the values only on its fast path (denominator
    1 or integer 0); on every other input it returns what [operator<] returns,
    that is, it decides whether the fraction is smaller than the integer. *)
Theorem operator_eq_int_behaviour (f : Fraction) (i : Z) :
  0 < _den f ->
  (_den f = 1 \/ i = 0 ->
   decides (operator_eq_int f i) (to_Q f == inject_Z i)%Q) /\
  (_den f <> 1 -> i <> 0 ->
   operator_eq_int f i = operator_lt_int f i /\
   decides (operator_eq_int f i) (to_Q f < inject_Z i)%Q).
Proof.
  intros Hf. split.
  - intros Hfast.
    assert (E : operator_eq_int f i = Some (_num f =? i)).
    { unfold operator_eq_int.
      destruct Hfast as [-> | ->]; [reflexivity|].
      now rewrite orb_true_r. }
    rewrite E. apply decides_eqb. rewrite to_Q_eq_int by assumption.
    destruct Hfast as [-> | ->]; lia.
  - intros Hd Hi.
    assert (E : operator_eq_int f i = operator_lt_int f i).
    { apply operator_eq_int_slow_path.
      destruct (Z.eqb_spec (_den f) 1); [contradiction|].
      destruct (Z.eqb_spec i 0); [contradiction|]. reflexivity. }
    split; [exact E|]. rewrite E. now apply operator_lt_int_decides.
Qed.

Lemma operator_eq_int_behaviour_witness :
  decides (operator_eq_int (mkFraction 6 1) 6) (to_Q (mkFraction 6 1) == inject_Z 6)%Q /\
  decides (operator_eq_int (mkFraction 1 3) 5) (to_Q (mkFraction 1 3) < inject_Z 5)%Q.
Proof.
  destruct (operator_eq_int_behaviour (mkFraction 6 1) 6) as [Hfast _]; [cbn; lia|].
  destruct (operator_eq_int_behaviour (mkFraction 1 3) 5) as [_ Hslow]; [cbn; lia|].
  split.
  - apply Hfast. left. reflexivity.
  - apply Hslow; cbn; lia.
Defined.

(** X5: for positive denominators the sign of [cross] decides the
    comparisons: [x < y] returns [true] exactly when [cross x y] is negative,
    [x == y] exactly when it is zero, and [cross] is antisymmetric. *)
Theorem cross_decides_comparison (x y : Fraction) :
  0 < _den x -> 0 < _den y ->
  operator_lt x y = Some (cross x y <? 0) /\
  operator_eq x y = Some (cross x y =? 0) /\
  operator_lt y x = Some (0 <? cross x y) /\
  cross y x = - cross x y.
Proof.
  intros Hx Hy.
  rewrite (operator_lt_spec x y), (operator_eq_spec x y), (operator_lt_spec y x)
    by assumption.
  unfold cross.
  split; [f_equal|split; [f_equal|split; [f_equal|ring]]].
  - destruct (Z.ltb_spec (_num x * _den y) (_num y * _den x)),
             (Z.ltb_spec (_num x * _den y - _den x * _num y) 0); try reflexivity; lia.
  - destruct (Z.eqb_spec (_num x * _den y) (_num y * _den x)),
             (Z.eqb_spec (_num x * _den y - _den x * _num y) 0); try reflexivity; lia.
  - destruct (Z.ltb_spec (_num y * _den x) (_num x * _den y)),
             (Z.ltb_spec 0 (_num x * _den y - _den x * _num y)); try reflexivity; lia.
Qed.

Lemma cross_decides_comparison_witness :
  operator_lt (mkFraction 1 2) (mkFraction 2 3) =
    Some (cross (mkFraction 1 2) (mkFraction 2 3) <? 0).
Proof.
  destruct (cross_decides_comparison (mkFraction 1 2) (mkFraction 2 3)) as (H & _);
    [cbn; lia | cbn; lia | exact H].
Defined.

Lemma decides_true (r : option bool) (P : Prop) : decides r P -> r = Some true <-> P.
Proof.
  intros (b & -> & Hb). rewrite <- Hb. split; [now intros [= ->] | now intros ->].
Qed.

Lemma decides_false (r : option bool) (P : Prop) : decides r P -> ~ P -> r = Some false.
Proof.
  intros (b & -> & Hb) HP. destruct b; [|reflexivity]. exfalso. apply HP, Hb. reflexivity.
Qed.

(** X6: on fractions with positive denominators [operator<] is a strict
    order (irreflexive, asymmetric, transitive), [operator==] is an
    equivalence relation, and [operator<] respects [operator==]. *)
Theorem comparison_order_laws (x y z : Fraction) :
  0 < _den x -> 0 < _den y -> 0 < _den z ->
  operator_lt x x = Some false /\
  (operator_lt x y = Some true -> operator_lt y x = Some false) /\
  (operator_lt x y = Some true -> operator_lt y z = Some true ->
   operator_lt x z = Some true) /\
  operator_eq x x = Some true /\
  (operator_eq x y = Some true -> operator_eq y x = Some true) /\
  (operator_eq x y = Some true -> operator_eq y z = Some true ->
   operator_eq x z = Some true) /\
  (operator_eq x y = Some true -> operator_lt x z = operator_lt y z) /\
  (operator_eq x y = Some true -> operator_lt z x = operator_lt z y).
Proof.
  intros Hx Hy Hz.
  pose proof (fun u v Hu Hv => decides_true _ _ (operator_lt_decides u v Hu Hv)) as L.
  pose proof (fun u v Hu Hv => decides_true _ _ (operator_eq_decides u v Hu Hv)) as E.
  split.
  { apply (decides_false _ _ (operator_lt_decides x x Hx Hx)). apply Qlt_irrefl. }
  split.
  { rewrite L by assumption. intros H.
    apply (decides_false _ _ (operator_lt_decides y x Hy Hx)).
    apply Qle_not_lt. now apply Qlt_le_weak. }
  split.
  { rewrite !L by assumption. apply Qlt_trans. }
  split.
  { rewrite E by assumption. reflexivity. }
  split.
  { rewrite !E by assumption. intros H. now symmetry. }
  split.
  { rewrite !E by assumption. intros H1 H2. now rewrite H1. }
  split.
  { rewrite E by assumption. intros H.
    rewrite (operator_lt_spec x z), (operator_lt_spec y z) by assumption. f_equal.
    apply Bool.eq_true_iff_eq. rewrite !Z.ltb_lt, <- !to_Q_lt by assumption.
    now rewrite H. }
  rewrite E by assumption. intros H.
  rewrite (operator_lt_spec z x), (operator_lt_spec z y) by assumption. f_equal.
  apply Bool.eq_true_iff_eq. rewrite !Z.ltb_lt, <- !to_Q_lt by assumption.
  now rewrite H.
Qed.

Lemma comparison_order_laws_witness :
  operator_lt (mkFraction 1 3) (mkFraction 3 4) = Some true.
Proof.
  destruct (comparison_order_laws (mkFraction 1 3) (mkFraction 1 2) (mkFraction 3 4))
    as (_ & _ & Htrans & _); [cbn; lia ..|].
  apply Htrans; vm_compute; reflexivity.
Defined.

(** ** Uniqueness of the canonical form *)

(** X7: the canonical form is unique.  Two fractions constructed from
    non-degenerate inputs that denote the same rational number have the same
    numerator and the same denominator; hence on such fractions [operator==]
    returns [true] exactly when the two objects are equal field by field. *)
Theorem canonical_form_unique (x y : Fraction) :
  constructed x -> constructed y ->
  ((to_Q x == to_Q y)%Q -> x = y) /\
  (operator_eq x y = Some true <-> x = y).
Proof.
  intros Hx Hy. apply constructed_elim in Hx, Hy.
  destruct Hx as [Hx Gx], Hy as [Hy Gy].
  assert (U : (to_Q x == to_Q y)%Q -> x = y).
  { intros H. apply to_Q_eq in H; [|assumption..]. now apply canonical_unique. }
  split; [exact U|].
  rewrite (decides_true _ _ (operator_eq_decides x y Hx Hy)).
  split; [exact U | intros ->; reflexivity].
Qed.

Lemma canonical_form_unique_witness :
  operator_eq (mkFraction 2 3) (mkFraction 2 3) = Some true <->
  mkFraction 2 3 = mkFraction 2 3.
Proof.
  apply (canonical_form_unique (mkFraction 2 3) (mkFraction 2 3)).
  - exists 2, 3. split; [lia | vm_compute; reflexivity].
  - exists 2, 3. split; [lia | vm_compute; reflexivity].
Defined.

(** ** The constructor and the rational value *)

Lemma constructed_pos (f : Fraction) : constructed f -> 0 < _den f.
Proof. intros H. now apply constructed_elim in H. Qed.

Lemma Fraction_of_constructed (n d : Z) :
  d <> 0 ->
  exists f : Fraction,
    Fraction_of n d = Some f /\ constructed f /\ _num f * d = n * _den f.
Proof.
  intros Hd. destruct (Fraction_of_total n d) as [f Hf].
  exists f. split; [assumption|]. split.
  - exists n, d. split; assumption.
  - now apply Fraction_of_value.
Qed.

Lemma Q_of_product (q x y : Q) : (~ y == 0 -> q * y == x -> q == x / y)%Q.
Proof. intros Hy H. rewrite <- H. symmetry. now apply Qdiv_mult_l. Qed.

Lemma inject_Z_nonzero (d : Z) : d <> 0 -> (~ inject_Z d == 0)%Q.
Proof. intros Hd H. apply Hd. now apply (inject_Z_injective d 0). Qed.

(** X8: for a non-zero denominator argument the constructor
    [Fraction(num, den)] returns a fraction with positive denominator and
    coprime fields whose rational value is [num/den]; it leaves a fraction
    that is already in that form unchanged. *)
Theorem Fraction_of_denotes_quotient (num den : Z) :
  den <> 0 ->
  exists f : Fraction,
    Fraction_of num den = Some f /\
    0 < _den f /\ Z.gcd (_num f) (_den f) = 1 /\
    (to_Q f == inject_Z num / inject_Z den)%Q /\
    Fraction_of (_num f) (_den f) = Some f.
Proof.
  intros Hd. destruct (Fraction_of_constructed num den Hd) as (f & Hf & Hc & Hv).
  exists f. split; [assumption|].
  destruct (constructed_elim f Hc) as [Hpos Hg].
  split; [assumption|]. split; [assumption|]. split.
  - apply Q_of_product; [now apply inject_Z_nonzero|].
    unfold Qeq, Qmult, to_Q, inject_Z. cbn [Qnum Qden].
    rewrite Pos2Z.inj_mul, Z2Pos.id by assumption. lia.
  - rewrite Fraction_of_nonneg by lia. unfold reduce.
    rewrite Hg, !Z.quot_1_r. now destruct f.
Qed.

Lemma Fraction_of_denotes_quotient_witness :
  exists f : Fraction,
    Fraction_of 6 (-4) = Some f /\
    0 < _den f /\ Z.gcd (_num f) (_den f) = 1 /\
    (to_Q f == inject_Z 6 / inject_Z (-4))%Q /\
    Fraction_of (_num f) (_den f) = Some f.
Proof. apply (Fraction_of_denotes_quotient 6 (-4)). lia. Defined.

(** X9: the constructor identifies exactly the equal quotients: for non-zero
    denominators, [Fraction(n, d)] and [Fraction(n', d')] are the same object
    if and only if [n * d' = n' * d]; in particular a common non-zero factor
    of both arguments, of either sign, is dropped. *)
Theorem Fraction_of_eq_iff (n d n' d' : Z) :
  d <> 0 -> d' <> 0 ->
  (Fraction_of n d = Fraction_of n' d' <-> n * d' = n' * d) /\
  (forall k : Z, k <> 0 -> Fraction_of (k * n) (k * d) = Fraction_of n d).
Proof.
  intros Hd Hd'.
  assert (Hiff : forall m e m' e' : Z, e <> 0 -> e' <> 0 ->
            (Fraction_of m e = Fraction_of m' e' <-> m * e' = m' * e)).
  { intros m e m' e' He He'.
    destruct (Fraction_of_constructed m e He) as (f & Hf & Hc & Hv).
    destruct (Fraction_of_constructed m' e' He') as (f' & Hf' & Hc' & Hv').
    rewrite Hf, Hf'.
    destruct (constructed_elim f Hc) as [Hpos Hg].
    destruct (constructed_elim f' Hc') as [Hpos' Hg'].
    split.
    - intros [= <-].
      apply (Z.mul_reg_r _ _ (_den f)); [lia|].
      transitivity (_num f * e * e'); [rewrite Hv; ring|].
      transitivity (_num f * e' * e); [ring | rewrite Hv'; ring].
    - intros Hq. f_equal. apply canonical_unique; try assumption.
      apply (Z.mul_reg_r _ _ (e * e')); [nia|].
      transitivity (_num f * e * (_den f' * e')); [ring|].
      rewrite Hv. transitivity (m * e' * _den f * _den f'); [ring|].
      rewrite Hq. transitivity (_num f' * e' * (_den f * e)); [rewrite Hv'|]; ring. }
  split; [now apply Hiff|].
  intros k Hk. apply Hiff; [nia | assumption | ring].
Qed.

Lemma Fraction_of_eq_iff_witness :
  Fraction_of 2 4 = Fraction_of 1 2 /\ Fraction_of (-3 * 1) (-3 * 2) = Fraction_of 1 2.
Proof.
  destruct (Fraction_of_eq_iff 2 4 1 2) as [Hiff _]; [lia | lia |].
  destruct (Fraction_of_eq_iff 1 2 1 2) as [_ Hk]; [lia | lia |].
  split; [apply Hiff; reflexivity | apply Hk; lia].
Defined.

(** ** Arithmetic and the rational field *)

Ltac q_cross :=
  unfold Qminus; unfold Qeq, Qplus, Qmult, Qopp, to_Q; cbn [Qnum Qden];
  rewrite ?Pos2Z.inj_mul, ?Z2Pos.id by assumption.

Lemma gcd_distinct_nonzero (b d : Z) : b <> d -> Z.gcd b d <> 0.
Proof.
  intros Hne E. pose proof (Z.gcd_eq_0_l _ _ E). pose proof (Z.gcd_eq_0_r _ _ E). lia.
Qed.

(** [operator+] as one constructor call, whatever the path. *)
Lemma operator_add_as_constructor (a b c d : Z) :
  b <> 0 \/ d <> 0 ->
  exists n D : Z,
    operator_add (mkFraction a b) (mkFraction c d) = Fraction_of n D /\
    n * (b * d) = (a * d + c * b) * D /\
    (b <> 0 -> d <> 0 -> D <> 0) /\
    (b = 0 \/ d = 0 -> D = 0).
Proof.
  intros Hnz. destruct (Z.eq_dec b d) as [->|Hne].
  - exists (a + c), d. rewrite operator_add_fast.
    split; [reflexivity|]. split; [ring|]. split; [auto | lia].
  - unfold operator_add. cbn [_num _den].
    destruct (Z.eqb_spec b d) as [|_]; [contradiction|].
    rewrite gcd_spec. cbn [bind].
    pose proof (gcd_distinct_nonzero b d Hne) as Hg.
    destruct (Z.eqb_spec (Z.gcd b d) 0) as [|_]; [contradiction|].
    rewrite !checked_div_nonzero by assumption. cbn [bind].
    pose proof (gcd_quot_l b d) as Hl. pose proof (gcd_quot_r b d) as Hr.
    remember (Z.quot b (Z.gcd b d)) as l eqn:El.
    remember (Z.quot d (Z.gcd b d)) as r eqn:Er.
    remember (Z.gcd b d) as g eqn:Eg.
    exists (r * a + l * c), (b * r).
    split; [reflexivity|]. clear El Er Eg Hnz Hne. subst b d.
    split; [ring|]. split; [nia|].
    intros [H | H]; apply Z.mul_eq_0 in H; destruct H as [-> | H];
      try contradiction; ring.
Qed.

Lemma operator_add_value (x y : Fraction) :
  0 < _den x -> 0 < _den y ->
  exists r : Fraction,
    operator_add x y = Some r /\ constructed r /\
    _num r * (_den x * _den y) = (_num x * _den y + _num y * _den x) * _den r.
Proof.
  destruct x as [a b], y as [c d]. cbn [_num _den]. intros Hb Hd.
  destruct (operator_add_as_constructor a b c d) as (n & D & E & Hv & HD & _); [lia|].
  assert (HD' : D <> 0) by (apply HD; lia).
  destruct (Fraction_of_constructed n D HD') as (r & Hr & Hc & Hrv).
  exists r. rewrite E. split; [assumption|]. split; [assumption|].
  apply (Z.mul_reg_r _ _ D); [assumption|].
  transitivity (_num r * D * (b * d)); [ring|].
  rewrite Hrv. transitivity (n * (b * d) * _den r); [ring|].
  rewrite Hv. ring.
Qed.

Lemma operator_neg_value (x : Fraction) :
  _den (operator_neg x) = _den x /\ _num (operator_neg x) = - _num x.
Proof. destruct x. split; reflexivity. Qed.

(** In-place subtraction against [operator+] on the negated operand. *)
Lemma operator_sub_assign_as_add (a b c d : Z) :
  0 <= b -> 0 <= d ->
  operator_sub_assign (mkFraction a b) (mkFraction c d) =
  operator_add (mkFraction a b) (mkFraction (- c) d).
Proof.
  intros Hb Hd. destruct (Z.eq_dec b d) as [->|Hne].
  - rewrite operator_add_fast, operator_sub_assign_fast, Fraction_of_nonneg by assumption.
    now replace (a + - c) with (a - c) by ring.
  - rewrite operator_add_slow, operator_sub_assign_slow by assumption. cbv zeta.
    set (t := reduce a c). set (o := reduce b d).
    set (X := _num t * _den o - _num o * _den t).
    set (u := reduce X (Z.gcd b d)).
    pose proof (gcd_distinct_nonzero b d Hne) as Hg2.
    pose proof (Z.gcd_nonneg b d) as Hg2'.
    assert (Hg3 : 0 < Z.gcd X (Z.gcd b d)).
    { pose proof (Z.gcd_nonneg X (Z.gcd b d)).
      assert (Z.gcd X (Z.gcd b d) <> 0); [|lia].
      intros E. apply Z.gcd_eq_0_r in E. contradiction. }
    assert (HN : _den o * a + _num o * - c = Z.gcd X (Z.gcd b d) * (_num u * Z.gcd a c)).
    { apply add_paths_num with (nt := _num t) (dt := _den t).
      - apply reduce_num.
      - rewrite Z.opp_involutive. apply reduce_den.
      - apply reduce_num. }
    assert (HD : b * _den o = Z.gcd X (Z.gcd b d) * (_den u * (_num o * _den o))).
    { apply add_paths_den with (g2 := Z.gcd b d).
      - apply reduce_num.
      - apply reduce_den. }
    assert (Hdo : 0 <= _den o) by (now apply reduce_den_nonneg).
    rewrite Fraction_of_nonneg by nia.
    now rewrite HN, HD, reduce_scale by assumption.
Qed.

Lemma operator_sub_assign_eq_sub (x y : Fraction) :
  0 <= _den x -> 0 <= _den y -> operator_sub_assign x y = operator_sub x y.
Proof.
  destruct x as [a b], y as [c d]. cbn [_num _den]. intros Hb Hd.
  now apply operator_sub_assign_as_add.
Qed.

Lemma operator_add_assign_eq_add (x y : Fraction) :
  0 <= _den x -> 0 <= _den y -> operator_add_assign x y = operator_add x y.
Proof.
  destruct x as [a b], y as [c d]. cbn [_num _den]. intros Hb Hd.
  unfold operator_add_assign, operator_neg, set_num. cbn [_num _den].
  rewrite operator_sub_assign_as_add by assumption. now rewrite Z.opp_involutive.
Qed.

Lemma operator_add_Q (x y : Fraction) :
  0 < _den x -> 0 < _den y ->
  exists r : Fraction,
    operator_add x y = Some r /\ constructed r /\ (to_Q r == to_Q x + to_Q y)%Q.
Proof.
  intros Hx Hy.
  destruct (operator_add_value x y Hx Hy) as (r & Hr & Hc & Hv).
  exists r. split; [assumption|]. split; [assumption|].
  pose proof (constructed_pos r Hc) as Hpos. q_cross. lia.
Qed.

Lemma operator_neg_Q (x : Fraction) : (to_Q (operator_neg x) == - to_Q x)%Q.
Proof. now destruct x. Qed.

Lemma operator_sub_Q (x y : Fraction) :
  0 < _den x -> 0 < _den y ->
  exists r : Fraction,
    operator_sub x y = Some r /\ constructed r /\ (to_Q r == to_Q x - to_Q y)%Q.
Proof.
  intros Hx Hy.
  assert (Hy' : 0 < _den (operator_neg y)) by (now destruct y).
  destruct (operator_add_Q x (operator_neg y) Hx Hy') as (r & Hr & Hc & Hv).
  exists r. split; [assumption|]. split; [assumption|].
  rewrite Hv, operator_neg_Q. reflexivity.
Qed.



Lemma reduce_den_pos (n d : Z) : 0 < d -> 0 < _den (reduce n d).
Proof.
  intros Hd. pose proof (reduce_den n d) as E.
  pose proof (reduce_den_nonneg n d). pose proof (Z.gcd_nonneg n d). nia.
Qed.

Lemma reduce_num_pos (n d : Z) : 0 < n -> 0 < _num (reduce n d).
Proof.
  intros Hn. pose proof (reduce_num n d) as E.
  pose proof (reduce_num_nonneg n d). pose proof (Z.gcd_nonneg n d). nia.
Qed.

Lemma canonical_pos_constructed (f : Fraction) :
  canonical_form f -> 0 < _den f -> constructed f.
Proof.
  intros Hc Hpos. apply canonical_form_elim in Hc. destruct Hc as [_ [E|E]].
  - apply Z.gcd_eq_0_r in E. lia.
  - destruct f as [n d]. now apply constructed_intro.
Qed.

Lemma mul_value_arith (nt dt no do' g1 g2 : Z) :
  nt * no * (dt * g1 * (do' * g2)) = no * g2 * (nt * g1) * (dt * do').
Proof. ring. Qed.

Lemma div_value_arith (nt dt no do' g1 g2 a c : Z) :
  g1 <> 0 -> nt * g1 * c = a * (dt * g1) ->
  nt * do' * c * (no * g2) = a * (dt * no * (do' * g2)).
Proof.
  intros Hg H.
  assert (E : nt * c = a * dt) by (apply (Z.mul_reg_r _ _ g1); [assumption | lia]).
  transitivity (nt * c * (do' * no * g2)); [ring|]. rewrite E. ring.
Qed.

Lemma normalize1_cross (n d : Z) :
  _num (normalize1 (mkFraction n d)) * d = n * _den (normalize1 (mkFraction n d)).
Proof. destruct (normalize1_cases n d) as [[-> _] | [-> _]]; cbn [_num _den]; ring. Qed.

Lemma normalize1_den_pos (n d : Z) : d <> 0 -> 0 < _den (normalize1 (mkFraction n d)).
Proof. intros H. destruct (normalize1_cases n d) as [[-> ?] | [-> ?]]; cbn [_den]; lia. Qed.

Lemma to_Q_nonzero (y : Fraction) : 0 < _den y -> _num y <> 0 -> (~ to_Q y == 0)%Q.
Proof.
  intros Hy Hn H. unfold Qeq, to_Q in H. cbn [Qnum Qden] in H. lia.
Qed.

Lemma operator_mul_Q (x y : Fraction) :
  constructed x -> constructed y ->
  exists r : Fraction,
    operator_mul x y = Some r /\ constructed r /\ (to_Q r == to_Q x * to_Q y)%Q.
Proof.
  intros Hx Hy. apply constructed_elim in Hx, Hy.
  destruct Hx as [Hb Gx], Hy as [Hd Gy].
  destruct (operator_mul_assign_canonical x y Hb Gx Hd Gy) as (r & Hr & Hc).
  exists r. split; [exact Hr|].
  destruct x as [a b], y as [c d]. cbn [_num _den] in *.
  rewrite operator_mul_assign_spec in Hr. injection Hr as <-.
  assert (Hpos : 0 < _den (reduce c b) * _den (reduce a d)).
  { apply Z.mul_pos_pos; now apply reduce_den_pos. }
  split; [now apply canonical_pos_constructed|].
  q_cross.
  pose proof (mul_value_arith (_num (reduce c b)) (_den (reduce c b))
                (_num (reduce a d)) (_den (reduce a d)) (Z.gcd c b) (Z.gcd a d)) as H.
  rewrite !reduce_num, !reduce_den in H. exact H.
Qed.

Lemma operator_div_Q (x y : Fraction) :
  constructed x -> constructed y -> _num y <> 0 ->
  exists r : Fraction,
    operator_div x y = Some r /\ constructed r /\ (to_Q r == to_Q x / to_Q y)%Q.
Proof.
  intros Hx Hy Hn. apply constructed_elim in Hx, Hy.
  destruct Hx as [Hb Gx], Hy as [Hd Gy].
  destruct (operator_div_assign_canonical x y Hb Gx Hd Gy) as (r & Hr & Hc).
  exists r. split; [exact Hr|].
  destruct x as [a b], y as [c d]. cbn [_num _den] in *.
  rewrite operator_div_assign_spec in Hr. cbv zeta in Hr. injection Hr as <-.
  set (t := normalize1 (mkFraction a c)) in *.
  assert (Ht : 0 < _den t) by (now apply normalize1_den_pos).
  assert (Hpos : 0 < _den (reduce (_num t) (_den t)) * _num (reduce b d)).
  { apply Z.mul_pos_pos; [now apply reduce_den_pos | now apply reduce_num_pos]. }
  split; [now apply canonical_pos_constructed|].
  apply Q_of_product; [now apply to_Q_nonzero|].
  q_cross.
  pose proof (div_value_arith (_num (reduce (_num t) (_den t)))
                (_den (reduce (_num t) (_den t)))
                (_num (reduce b d)) (_den (reduce b d))
                (Z.gcd (_num t) (_den t)) (Z.gcd b d) a c) as H.
  rewrite !reduce_num, !reduce_den in H.
  cbn [_num _den]. apply H; [now apply gcd_pos_r | apply normalize1_cross].
Qed.



(** X12: [reciprocal] is an involution on fractions with positive
    denominators; on a constructed fraction with non-zero numerator it
    returns the canonical fraction whose value is the inverse, the sign
    having moved to the numerator. *)
Theorem reciprocal_inverts (x : Fraction) :
  0 < _den x ->
  reciprocal (reciprocal x) = x /\
  (constructed x -> _num x <> 0 ->
   constructed (reciprocal x) /\
   (to_Q (reciprocal x) == / to_Q x)%Q /\
   _num (reciprocal x) * Z.sgn (_num x) = _den x).
Proof.
  destruct x as [a b]. cbn [_num _den]. intros Hb. split.
  - unfold reciprocal, normalize1. cbn [_num _den].
    destruct (Z.ltb_spec a 0) as [Ha|Ha]; cbn [_num _den].
    + destruct (Z.ltb_spec (- b) 0); [|lia]. f_equal; ring.
    + destruct (Z.ltb_spec b 0); [lia|]. reflexivity.
  - intros Hc Ha. apply constructed_elim in Hc. cbn [_num _den] in Hc.
    destruct Hc as [_ Hg].
    assert (E : reciprocal (mkFraction a b) =
                if a <? 0 then mkFraction (- b) (- a) else mkFraction b a).
    { reflexivity. }
    rewrite E. clear E.
    destruct (Z.ltb_spec a 0) as [Hneg|Hpos]; cbn [_num _den].
    + split; [|split].
      * apply constructed_intro; [lia|].
        now rewrite Z.gcd_opp_l, Z.gcd_opp_r, Z.gcd_comm.
      * setoid_replace (/ to_Q (mkFraction a b))%Q with (1 / to_Q (mkFraction a b))%Q
          by (unfold Qdiv; now rewrite Qmult_1_l).
        apply Q_of_product; [apply to_Q_nonzero; cbn; lia|].
        assert (0 < - a) by lia. q_cross. cbn [_num _den]. ring.
      * rewrite Z.sgn_neg by assumption. ring.
    + assert (0 < a) by lia. split; [|split].
      * apply constructed_intro; [lia | now rewrite Z.gcd_comm].
      * setoid_replace (/ to_Q (mkFraction a b))%Q with (1 / to_Q (mkFraction a b))%Q
          by (unfold Qdiv; now rewrite Qmult_1_l).
        apply Q_of_product; [apply to_Q_nonzero; cbn; lia|].
        q_cross. cbn [_num _den]. ring.
      * rewrite Z.sgn_pos by assumption. ring.
Qed.

Lemma reciprocal_inverts_witness :
  reciprocal (reciprocal (mkFraction (-3) 4)) = mkFraction (-3) 4 /\
  constructed (reciprocal (mkFraction (-3) 4)).
Proof.
  destruct (reciprocal_inverts (mkFraction (-3) 4)) as [Hinv H]; [cbn; lia|].
  split; [exact Hinv|].
  apply H; [exists (-3), 4; split; [lia | vm_compute; reflexivity] | cbn; lia].
Defined.

(** ** Algebraic laws that hold on every pair of objects *)

Lemma reduce_swap (n d : Z) :
  reduce d n = mkFraction (_den (reduce n d)) (_num (reduce n d)).
Proof. unfold reduce. cbn [_num _den]. now rewrite (Z.gcd_comm d n). Qed.

Lemma reduce_opp_l (n d : Z) :
  reduce (- n) d = mkFraction (- _num (reduce n d)) (_den (reduce n d)).
Proof. unfold reduce. cbn [_num _den]. now rewrite Z.gcd_opp_l, Zquot_opp_l. Qed.

Lemma reduce_1_r (n : Z) : reduce n 1 = mkFraction n 1.
Proof. unfold reduce. now rewrite Z.gcd_1_r, !Z.quot_1_r. Qed.

Lemma reduce_1_l (d : Z) : reduce 1 d = mkFraction 1 d.
Proof. unfold reduce. now rewrite Z.gcd_1_l, !Z.quot_1_r. Qed.

Lemma operator_add_comm (x y : Fraction) : operator_add x y = operator_add y x.
Proof.
  destruct x as [a b], y as [c d].
  destruct (Z.eq_dec b d) as [->|Hne].
  - rewrite !operator_add_fast. now rewrite Z.add_comm.
  - unfold operator_add. cbn [_num _den].
    destruct (Z.eqb_spec b d) as [|_]; [contradiction|].
    destruct (Z.eqb_spec d b) as [E|_]; [symmetry in E; contradiction|].
    rewrite !gcd_spec, (Z.gcd_comm d b). cbn [bind].
    pose proof (gcd_distinct_nonzero b d Hne) as Hg.
    destruct (Z.eqb_spec (Z.gcd b d) 0) as [|_]; [contradiction|].
    rewrite !checked_div_nonzero by assumption. cbn [bind].
    pose proof (gcd_quot_l b d) as Hl. pose proof (gcd_quot_r b d) as Hr.
    f_equal; [ring|].
    transitivity (Z.quot b (Z.gcd b d) * Z.gcd b d * Z.quot d (Z.gcd b d));
      [now rewrite Hl|].
    transitivity (Z.quot d (Z.gcd b d) * Z.gcd b d * Z.quot b (Z.gcd b d));
      [ring | now rewrite Hr].
Qed.

Lemma operator_mul_comm (x y : Fraction) : operator_mul x y = operator_mul y x.
Proof.
  destruct x as [a b], y as [c d]. unfold operator_mul.
  rewrite !operator_mul_assign_spec. f_equal. f_equal; ring.
Qed.

Lemma operator_div_as_mul (x y : Fraction) :
  operator_div x y = operator_mul x (reciprocal y).
Proof.
  destruct x as [a b], y as [c d]. unfold operator_div, operator_mul, reciprocal.
  rewrite operator_div_assign_spec. cbv zeta. cbn [_num _den].
  destruct (normalize1_cases a c) as [[Ea Hc] | [Ea Hc]];
    destruct (normalize1_cases d c) as [[Ed Hc'] | [Ed Hc']]; try lia;
    rewrite Ea, Ed, operator_mul_assign_spec; cbn [_num _den].
  - rewrite (reduce_swap b d). cbn [_num _den]. f_equal. f_equal; ring.
  - rewrite (reduce_opp_l d b), (reduce_swap b d), (reduce_opp_l a (- c)).
    cbn [_num _den]. f_equal. f_equal; ring.
Qed.

(** X13: on every pair of fraction objects, whatever their fields,
    [operator+] and [operator*] are commutative, and [operator/] returns what
    [operator*] returns on the reciprocal of its right operand. *)
Theorem commutativity_and_division (x y : Fraction) :
  operator_add x y = operator_add y x /\
  operator_mul x y = operator_mul y x /\
  operator_div x y = operator_mul x (reciprocal y).
Proof.
  split; [apply operator_add_comm|].
  split; [apply operator_mul_comm | apply operator_div_as_mul].
Qed.

(** ** Mixed arithmetic with a bare integer *)

Lemma operator_sub_assign_int_closed (a b z : Z) :
  operator_sub_assign_int (mkFraction a b) z = Some (reduce (a - z * b) b).
Proof.
  rewrite operator_sub_assign_int_spec.
  destruct (Z.eqb_spec b 1) as [->|Hb].
  - now rewrite reduce_1_r, Z.mul_1_r.
  - cbv zeta. f_equal. f_equal.
    replace ((_num (reduce a z) - _den (reduce a z) * b) * Z.gcd a z)
      with (_num (reduce a z) * Z.gcd a z - _den (reduce a z) * Z.gcd a z * b) by ring.
    now rewrite reduce_num, reduce_den.
Qed.

Lemma operator_add_int_closed (a b i : Z) :
  0 <= b ->
  operator_add (mkFraction a b) (Fraction_of_int i) = Some (reduce (a + i * b) b).
Proof.
  intros Hb. unfold Fraction_of_int.
  destruct (Z.eq_dec b 1) as [->|Hne].
  - rewrite operator_add_fast, Fraction_of_nonneg by lia. now rewrite Z.mul_1_r.
  - rewrite operator_add_slow by lia. cbv zeta. rewrite reduce_1_r. cbn [_num _den].
    rewrite Fraction_of_nonneg by lia. f_equal. f_equal; ring.
Qed.

Lemma operator_add_int_eq (x : Fraction) (i : Z) :
  0 <= _den x -> operator_add_int x i = operator_add x (Fraction_of_int i).
Proof.
  destruct x as [a b]. cbn [_den]. intros Hb.
  unfold operator_add_int, operator_add_assign_int.
  rewrite operator_sub_assign_int_closed, operator_add_int_closed by assumption.
  f_equal. f_equal. ring.
Qed.

Lemma operator_sub_assign_int_eq (x : Fraction) (i : Z) :
  0 <= _den x -> operator_sub_assign_int x i = operator_sub x (Fraction_of_int i).
Proof.
  destruct x as [a b]. cbn [_den]. intros Hb.
  change (operator_sub (mkFraction a b) (Fraction_of_int i))
    with (operator_add (mkFraction a b) (Fraction_of_int (- i))).
  rewrite operator_sub_assign_int_closed, operator_add_int_closed by assumption.
  f_equal. f_equal. ring.
Qed.

Lemma operator_mul_int_eq (x : Fraction) (i : Z) :
  operator_mul_int x i = operator_mul x (Fraction_of_int i).
Proof.
  destruct x as [a b]. unfold operator_mul_int, operator_mul, Fraction_of_int.
  rewrite operator_mul_assign_int_spec, operator_mul_assign_spec, reduce_1_r.
  cbn [_num _den]. f_equal. f_equal; ring.
Qed.

Lemma operator_div_int_eq (x : Fraction) (i : Z) :
  operator_div_int x i = operator_div x (Fraction_of_int i).
Proof.
  destruct x as [a b]. unfold operator_div_int, operator_div, Fraction_of_int.
  rewrite operator_div_assign_int_spec, operator_div_assign_spec, reduce_1_r.
  cbv zeta. cbn [_num _den]. f_equal. f_equal; ring.
Qed.

Lemma operator_div_int_l_eq (i : Z) (x : Fraction) :
  operator_div_int_l i x = operator_div (Fraction_of_int i) x.
Proof.
  rewrite operator_div_as_mul, operator_mul_comm.
  unfold operator_div_int_l. apply operator_mul_int_eq.
Qed.

(** X14: arithmetic between a fraction and a bare integer [i], in either
    operand order and in the in-place forms, returns what the corresponding
    operator between fractions returns on [Fraction(i)], the fraction [i/1]:
    always for [*] and [/], and for [+] and [-] whenever the fraction's
    denominator is non-negative. *)
Theorem integer_arithmetic_as_fraction (x : Fraction) (i : Z) :
  (operator_mul_int x i = operator_mul x (Fraction_of_int i) /\
   operator_mul_assign_int x i = operator_mul_assign x (Fraction_of_int i) /\
   operator_mul_int_l i x = operator_mul (Fraction_of_int i) x /\
   operator_mul_rvalue i x = operator_mul (Fraction_of_int i) x /\
   operator_div_int x i = operator_div x (Fraction_of_int i) /\
   operator_div_assign_int x i = operator_div_assign x (Fraction_of_int i) /\
   operator_div_int_l i x = operator_div (Fraction_of_int i) x) /\
  (0 <= _den x ->
   operator_add_int x i = operator_add x (Fraction_of_int i) /\
   operator_add_assign_int x i = operator_add_assign x (Fraction_of_int i) /\
   operator_add_int_l i x = operator_add (Fraction_of_int i) x /\
   operator_add_rvalue i x = operator_add (Fraction_of_int i) x /\
   operator_sub_int x i = operator_sub x (Fraction_of_int i) /\
   operator_sub_assign_int x i = operator_sub_assign x (Fraction_of_int i) /\
   operator_sub_int_l i x = operator_sub (Fraction_of_int i) x /\
   operator_sub_rvalue i x = operator_sub (Fraction_of_int i) x).
Proof.
  split.
  - split; [apply operator_mul_int_eq|].
    split; [apply operator_mul_int_eq|].
    split; [rewrite operator_mul_comm; apply operator_mul_int_eq|].
    split; [rewrite operator_mul_comm; apply operator_mul_int_eq|].
    split; [apply operator_div_int_eq|].
    split; [apply operator_div_int_eq | apply operator_div_int_l_eq].
  - intros Hx.
    assert (Hneg : 0 <= _den (operator_neg x)) by (now destruct x).
    assert (Hi : 0 <= _den (Fraction_of_int i)) by (cbn; lia).
    split; [now apply operator_add_int_eq|].
    split; [rewrite operator_add_assign_eq_add by assumption;
            now apply operator_add_int_eq|].
    split; [rewrite operator_add_comm; now apply operator_add_int_eq|].
    split; [rewrite operator_add_comm; now apply operator_add_int_eq|].
    split; [now apply (operator_add_int_eq x (- i))|].
    split; [rewrite operator_sub_assign_eq_sub by assumption;
            now apply operator_sub_assign_int_eq|].
    split.
    + unfold operator_sub. rewrite operator_add_comm.
      now apply (operator_add_int_eq (operator_neg x) i).
    + unfold operator_sub. rewrite operator_add_comm.
      now apply (operator_add_int_eq (operator_neg x) i).
Qed.

Lemma integer_arithmetic_as_fraction_witness :
  operator_sub_int_l 1 (mkFraction 3 2) =
  operator_sub (Fraction_of_int 1) (mkFraction 3 2).
Proof.
  destruct (integer_arithmetic_as_fraction (mkFraction 3 2) 1) as [_ H].
  apply H. cbn. lia.
Defined.

(** ** Field laws on canonical fractions *)

Lemma constructed_unique (x y : Fraction) :
  constructed x -> constructed y -> (to_Q x == to_Q y)%Q -> x = y.
Proof.
  intros Hx Hy H. apply constructed_elim in Hx, Hy.
  destruct Hx as [Hx Gx], Hy as [Hy Gy].
  apply to_Q_eq in H; [|assumption..]. now apply canonical_unique.
Qed.

Lemma constructed_zero : constructed (mkFraction 0 1).
Proof. now apply constructed_intro. Qed.

Lemma constructed_one : constructed (mkFraction 1 1).
Proof. now apply constructed_intro. Qed.

Lemma operator_add_Q' (x y : Fraction) :
  constructed x -> constructed y ->
  exists r : Fraction,
    operator_add x y = Some r /\ constructed r /\ (to_Q r == to_Q x + to_Q y)%Q.
Proof. intros Hx Hy. apply operator_add_Q; now apply constructed_pos. Qed.

Lemma operator_sub_Q' (x y : Fraction) :
  constructed x -> constructed y ->
  exists r : Fraction,
    operator_sub x y = Some r /\ constructed r /\ (to_Q r == to_Q x - to_Q y)%Q.
Proof. intros Hx Hy. apply operator_sub_Q; now apply constructed_pos. Qed.

(** X15: on a fraction [x] constructed from a non-degenerate input, [0/1] is
    neutral for addition and [1/1] for multiplication and division, [x + (-x)]
    and [x - x] are [0/1], [x * 0/1] is [0/1], and [x / x] is [1/1] when the
    numerator of [x] is not zero: the results are these very objects, not
    merely equivalent ones. *)
Theorem identity_and_inverse_laws (x : Fraction) :
  constructed x ->
  operator_add x (mkFraction 0 1) = Some x /\
  operator_sub x (mkFraction 0 1) = Some x /\
  operator_mul x (mkFraction 1 1) = Some x /\
  operator_div x (mkFraction 1 1) = Some x /\
  operator_add x (operator_neg x) = Some (mkFraction 0 1) /\
  operator_sub x x = Some (mkFraction 0 1) /\
  operator_mul x (mkFraction 0 1) = Some (mkFraction 0 1) /\
  (_num x <> 0 -> operator_div x x = Some (mkFraction 1 1)).
Proof.
  intros Hx.
  pose proof constructed_zero as H0. pose proof constructed_one as H1.
  pose proof (operator_neg_constructed x Hx) as Hn.
  assert (Q0 : (to_Q (mkFraction 0 1) == 0)%Q) by reflexivity.
  assert (Q1 : (to_Q (mkFraction 1 1) == 1)%Q) by reflexivity.
  split.
  { destruct (operator_add_Q' x _ Hx H0) as (r & -> & Hc & Hv). f_equal.
    apply constructed_unique; [assumption..|]. rewrite Hv, Q0. ring. }
  split.
  { destruct (operator_sub_Q' x _ Hx H0) as (r & -> & Hc & Hv). f_equal.
    apply constructed_unique; [assumption..|]. rewrite Hv, Q0. ring. }
  split.
  { destruct (operator_mul_Q x _ Hx H1) as (r & -> & Hc & Hv). f_equal.
    apply constructed_unique; [assumption..|]. rewrite Hv, Q1. ring. }
  split.
  { destruct (operator_div_Q x _ Hx H1) as (r & -> & Hc & Hv); [cbn; lia|]. f_equal.
    apply constructed_unique; [assumption..|]. rewrite Hv, Q1. field. }
  split.
  { destruct (operator_add_Q' x _ Hx Hn) as (r & -> & Hc & Hv). f_equal.
    apply constructed_unique; [assumption..|]. rewrite Hv, operator_neg_Q, Q0. ring. }
  split.
  { destruct (operator_sub_Q' x _ Hx Hx) as (r & -> & Hc & Hv). f_equal.
    apply constructed_unique; [assumption..|]. rewrite Hv, Q0. ring. }
  split.
  { destruct (operator_mul_Q x _ Hx H0) as (r & -> & Hc & Hv). f_equal.
    apply constructed_unique; [assumption..|]. rewrite Hv, Q0. ring. }
  intros Hnum.
  destruct (operator_div_Q x _ Hx Hx Hnum) as (r & -> & Hc & Hv). f_equal.
  apply constructed_unique; [assumption..|]. rewrite Hv, Q1. field.
  apply to_Q_nonzero; [now apply constructed_pos | assumption].
Qed.

Lemma identity_and_inverse_laws_witness :
  operator_add (mkFraction (-2) 3) (operator_neg (mkFraction (-2) 3)) =
    Some (mkFraction 0 1) /\
  operator_div (mkFraction (-2) 3) (mkFraction (-2) 3) = Some (mkFraction 1 1).
Proof.
  destruct (identity_and_inverse_laws (mkFraction (-2) 3))
    as (_ & _ & _ & _ & Hneg & _ & _ & Hdiv).
  - exists (-2), 3. split; [lia | vm_compute; reflexivity].
  - split; [exact Hneg | apply Hdiv; cbn; lia].
Defined.

(** X16: addition and subtraction, and multiplication and division by a
    fraction with non-zero numerator, undo each other exactly on fractions
    constructed from non-degenerate inputs: [(x + y) - y], [(x - y) + y],
    [(x * y) / y] and [(x / y) * y] all return the object [x]. *)
Theorem arithmetic_round_trips (x y : Fraction) :
  constructed x -> constructed y ->
  (s <- operator_add x y ;; operator_sub s y) = Some x /\
  (d <- operator_sub x y ;; operator_add d y) = Some x /\
  (_num y <> 0 ->
   (p <- operator_mul x y ;; operator_div p y) = Some x /\
   (q <- operator_div x y ;; operator_mul q y) = Some x).
Proof.
  intros Hx Hy.
  split.
  { destruct (operator_add_Q' x y Hx Hy) as (s & -> & Hs & Vs). cbn [bind].
    destruct (operator_sub_Q' s y Hs Hy) as (r & -> & Hr & Vr). f_equal.
    apply constructed_unique; [assumption..|]. rewrite Vr, Vs. ring. }
  split.
  { destruct (operator_sub_Q' x y Hx Hy) as (s & -> & Hs & Vs). cbn [bind].
    destruct (operator_add_Q' s y Hs Hy) as (r & -> & Hr & Vr). f_equal.
    apply constructed_unique; [assumption..|]. rewrite Vr, Vs. ring. }
  intros Hnum.
  assert (Hnz : (~ to_Q y == 0)%Q).
  { apply to_Q_nonzero; [now apply constructed_pos | assumption]. }
  split.
  - destruct (operator_mul_Q x y Hx Hy) as (s & -> & Hs & Vs). cbn [bind].
    destruct (operator_div_Q s y Hs Hy Hnum) as (r & -> & Hr & Vr). f_equal.
    apply constructed_unique; [assumption..|]. rewrite Vr, Vs. now field.
  - destruct (operator_div_Q x y Hx Hy Hnum) as (s & -> & Hs & Vs). cbn [bind].
    destruct (operator_mul_Q s y Hs Hy) as (r & -> & Hr & Vr). f_equal.
    apply constructed_unique; [assumption..|]. rewrite Vr, Vs. now field.
Qed.

Lemma arithmetic_round_trips_witness :
  (q <- operator_div (mkFraction 2 3) (mkFraction 4 9) ;;
   operator_mul q (mkFraction 4 9)) = Some (mkFraction 2 3).
Proof.
  destruct (arithmetic_round_trips (mkFraction 2 3) (mkFraction 4 9)) as (_ & _ & H).
  - exists 2, 3. split; [lia | vm_compute; reflexivity].
  - exists 4, 9. split; [lia | vm_compute; reflexivity].
  - apply H. cbn. lia.
Defined.

(** X17: on fractions constructed from non-degenerate inputs, addition and
    multiplication are associative and multiplication distributes over
    addition, as equalities between the returned objects. *)
Theorem associativity_and_distributivity (x y z : Fraction) :
  constructed x -> constructed y -> constructed z ->
  (s <- operator_add x y ;; operator_add s z) =
    (s <- operator_add y z ;; operator_add x s) /\
  (p <- operator_mul x y ;; operator_mul p z) =
    (p <- operator_mul y z ;; operator_mul x p) /\
  (s <- operator_add y z ;; operator_mul x s) =
    (p <- operator_mul x y ;; q <- operator_mul x z ;; operator_add p q) /\
  exists r : Fraction, (s <- operator_add x y ;; operator_add s z) = Some r.
Proof.
  intros Hx Hy Hz.
  destruct (operator_add_Q' x y Hx Hy) as (xy & Exy & Hxy & Vxy).
  destruct (operator_add_Q' y z Hy Hz) as (yz & Eyz & Hyz & Vyz).
  destruct (operator_add_Q' xy z Hxy Hz) as (l & El & Hl & Vl).
  destruct (operator_add_Q' x yz Hx Hyz) as (r & Er & Hr & Vr).
  destruct (operator_mul_Q x y Hx Hy) as (mxy & Fxy & Gxy & Wxy).
  destruct (operator_mul_Q y z Hy Hz) as (myz & Fyz & Gyz & Wyz).
  destruct (operator_mul_Q x z Hx Hz) as (mxz & Fxz & Gxz & Wxz).
  destruct (operator_mul_Q mxy z Gxy Hz) as (ml & Fl & Gl & Wl).
  destruct (operator_mul_Q x myz Hx Gyz) as (mr & Fr & Gr & Wr).
  destruct (operator_mul_Q x yz Hx Hyz) as (dl & Dl & Kl & Ul).
  destruct (operator_add_Q' mxy mxz Gxy Gxz) as (dr & Dr & Kr & Ur).
  rewrite Exy, Eyz, Fxy, Fyz, Fxz. cbn [bind].
  rewrite El, Er, Fl, Fr, Dl, Dr.
  split.
  { f_equal. apply constructed_unique; [assumption..|]. rewrite Vl, Vr, Vxy, Vyz. ring. }
  split.
  { f_equal. apply constructed_unique; [assumption..|]. rewrite Wl, Wr, Wxy, Wyz. ring. }
  split.
  { f_equal. apply constructed_unique; [assumption..|].
    rewrite Ul, Ur, Vyz, Wxy, Wxz. ring. }
  exists l. reflexivity.
Qed.

Lemma associativity_and_distributivity_witness :
  (s <- operator_add (mkFraction 1 2) (mkFraction 1 3) ;;
   operator_add s (mkFraction 1 6)) =
  (s <- operator_add (mkFraction 1 3) (mkFraction 1 6) ;;
   operator_add (mkFraction 1 2) s).
Proof.
  destruct (associativity_and_distributivity
              (mkFraction 1 2) (mkFraction 1 3) (mkFraction 1 6)) as (H & _).
  - exists 1, 2. split; [lia | vm_compute; reflexivity].
  - exists 1, 3. split; [lia | vm_compute; reflexivity].
  - exists 1, 6. split; [lia | vm_compute; reflexivity].
  - exact H.
Defined.

(** ** In-place subtraction, the paths of addition, zero denominators *)

(** X18: for operands with non-negative denominators, the zero denominator
    included, the in-place [x -= y] leaves in [x] exactly the fraction that
    [x - y] returns, and [x += y] the one that [x + y] returns, although the
    in-place forms are computed by a different algorithm. *)
Theorem in_place_subtraction_agrees (x y : Fraction) :
  0 <= _den x -> 0 <= _den y ->
  operator_sub_assign x y = operator_sub x y /\
  operator_add_assign x y = operator_add x y /\
  exists r : Fraction, operator_sub_assign x y = Some r.
Proof.
  intros Hx Hy.
  split; [now apply operator_sub_assign_eq_sub|].
  split; [now apply operator_add_assign_eq_add|].
  destruct (operator_sub_assign_canonical x y Hx Hy) as (r & Hr & _).
  exists r. exact Hr.
Qed.

Lemma in_place_subtraction_agrees_witness :
  operator_sub_assign (mkFraction 1 0) (mkFraction 1 2) =
  operator_sub (mkFraction 1 0) (mkFraction 1 2).
Proof.
  destruct (in_place_subtraction_agrees (mkFraction 1 0) (mkFraction 1 2)) as (H & _);
    [cbn; lia | cbn; lia | exact H].
Defined.

(** X19: [operator+] never takes its zero-gcd branch: whenever the two
    denominators differ their gcd is not zero, so that the result is the
    general-path constructor call [Fraction(r*a + l*c, b*r)] with [l = b/g]
    and [r = d/g], both divisions being defined. *)
Theorem operator_add_zero_gcd_branch_dead (x y : Fraction) :
  _den x <> _den y ->
  exists g l r : Z,
    gcd (_den x) (_den y) = Some g /\ g <> 0 /\
    checked_div (_den x) g = Some l /\
    checked_div (_den y) g = Some r /\
    operator_add x y = Fraction_of (r * _num x + l * _num y) (_den x * r).
Proof.
  intros Hne. pose proof (gcd_distinct_nonzero _ _ Hne) as Hg.
  exists (Z.gcd (_den x) (_den y)),
         (Z.quot (_den x) (Z.gcd (_den x) (_den y))),
         (Z.quot (_den y) (Z.gcd (_den x) (_den y))).
  split; [apply gcd_spec|]. split; [assumption|].
  split; [now apply checked_div_nonzero|].
  split; [now apply checked_div_nonzero|].
  unfold operator_add.
  destruct (Z.eqb_spec (_den x) (_den y)) as [|_]; [contradiction|].
  rewrite gcd_spec. cbn [bind].
  destruct (Z.eqb_spec (Z.gcd (_den x) (_den y)) 0) as [|_]; [contradiction|].
  rewrite !checked_div_nonzero by assumption. reflexivity.
Qed.

Lemma operator_add_zero_gcd_branch_dead_witness :
  exists g l r : Z,
    gcd 0 5 = Some g /\ g <> 0 /\
    checked_div 0 g = Some l /\
    checked_div 5 g = Some r /\
    operator_add (mkFraction 1 0) (mkFraction 2 5) = Fraction_of (r * 1 + l * 2) (0 * r).
Proof.
  apply (operator_add_zero_gcd_branch_dead (mkFraction 1 0) (mkFraction 2 5)).
  cbn. lia.
Defined.

Lemma reduce_den_zero (n : Z) : _den (reduce n 0) = 0.
Proof. unfold reduce. cbn [_den]. apply quot_0_l. Qed.

Lemma reduce_num_zero (d : Z) : _num (reduce 0 d) = 0.
Proof. unfold reduce. cbn [_num]. apply quot_0_l. Qed.

Lemma Fraction_of_zero_den (n : Z) (r : Fraction) :
  Fraction_of n 0 = Some r -> _den r = 0.
Proof.
  rewrite Fraction_of_nonneg by lia. intros [= <-]. apply reduce_den_zero.
Qed.

Lemma operator_add_zero_den (x y r : Fraction) :
  _den x = 0 \/ _den y = 0 -> operator_add x y = Some r -> _den r = 0.
Proof.
  destruct x as [a b], y as [c d]. cbn [_den]. intros Hz Hr.
  destruct (Z.eq_dec b 0) as [Eb|Eb]; destruct (Z.eq_dec d 0) as [Ed|Ed]; try lia.
  - subst b d. rewrite operator_add_fast in Hr. now apply Fraction_of_zero_den in Hr.
  - destruct (operator_add_as_constructor a b c d) as (n & D & E & _ & _ & HD); [lia|].
    rewrite HD in E by lia. rewrite E in Hr. now apply Fraction_of_zero_den in Hr.
  - destruct (operator_add_as_constructor a b c d) as (n & D & E & _ & _ & HD); [lia|].
    rewrite HD in E by lia. rewrite E in Hr. now apply Fraction_of_zero_den in Hr.
Qed.

Lemma some_eq {A : Type} (a b : A) : Some a = Some b -> a = b.
Proof. now intros [= ->]. Qed.

(** X20: the zero denominator is absorbing.  If an operand of [+], [-], [*],
    [+=] or [-=] has denominator 0, so has the result; in a division a zero
    denominator of the dividend gives denominator 0 and a zero denominator of
    the divisor gives numerator 0; the same holds for a fraction with
    denominator 0 combined with a bare integer by [+], [-], [*] or [/]. *)
Theorem zero_denominator_propagates (x y r : Fraction) (i : Z) :
  (_den x = 0 \/ _den y = 0 ->
   (operator_add x y = Some r -> _den r = 0) /\
   (operator_sub x y = Some r -> _den r = 0) /\
   (operator_mul x y = Some r -> _den r = 0) /\
   (operator_add_assign x y = Some r -> _den r = 0) /\
   (operator_sub_assign x y = Some r -> _den r = 0)) /\
  (_den x = 0 -> operator_div x y = Some r -> _den r = 0) /\
  (_den y = 0 -> operator_div x y = Some r -> _num r = 0) /\
  (_den x = 0 ->
   (operator_add_int x i = Some r -> _den r = 0) /\
   (operator_sub_int x i = Some r -> _den r = 0) /\
   (operator_mul_int x i = Some r -> _den r = 0) /\
   (operator_div_int x i = Some r -> _den r = 0)).
Proof.
  assert (Hsub : forall u v : Fraction,
             _den u = 0 \/ _den v = 0 -> operator_sub_assign u v = Some r -> _den r = 0).
  { intros [a b] [c d]. cbn [_den]. intros Hz.
    destruct (Z.eq_dec b d) as [->|Hne].
    - rewrite operator_sub_assign_fast. intros Hr; apply some_eq in Hr; subst r.
      replace d with 0 by lia. apply reduce_den_zero.
    - rewrite operator_sub_assign_slow by assumption. cbv zeta. intros Hr; apply some_eq in Hr; subst r.
      assert (E : _num (reduce b d) * _den (reduce b d) = 0).
      { destruct Hz as [-> | ->];
          [rewrite reduce_num_zero | rewrite reduce_den_zero]; ring. }
      rewrite E, Z.mul_0_r. apply reduce_den_zero. }
  destruct x as [a b], y as [c d]. cbn [_den].
  split; [intros Hz|split; [|split]].
  - split; [now apply operator_add_zero_den|].
    split; [now apply operator_add_zero_den|].
    split.
    { unfold operator_mul. rewrite operator_mul_assign_spec. intros Hr; apply some_eq in Hr; subst r. cbn [_den].
      destruct Hz as [-> | ->]; rewrite reduce_den_zero; ring. }
    split; [now apply Hsub | now apply Hsub].
  - intros ->. unfold operator_div. rewrite operator_div_assign_spec. cbv zeta.
    intros Hr; apply some_eq in Hr; subst r. cbn [_den]. rewrite reduce_num_zero. ring.
  - intros ->. unfold operator_div. rewrite operator_div_assign_spec. cbv zeta.
    intros Hr; apply some_eq in Hr; subst r. cbn [_num]. rewrite reduce_den_zero. ring.
  - intros ->.
    split.
    { unfold operator_add_int, operator_add_assign_int.
      rewrite operator_sub_assign_int_closed. intros Hr; apply some_eq in Hr; subst r. apply reduce_den_zero. }
    split.
    { unfold operator_sub_int, operator_add_int, operator_add_assign_int.
      rewrite operator_sub_assign_int_closed. intros Hr; apply some_eq in Hr; subst r. apply reduce_den_zero. }
    split.
    { unfold operator_mul_int. rewrite operator_mul_assign_int_spec.
      intros Hr; apply some_eq in Hr; subst r. apply reduce_den_zero. }
    unfold operator_div_int. rewrite operator_div_assign_int_spec. cbv zeta.
    intros Hr; apply some_eq in Hr; subst r. cbn [_den]. ring.
Qed.

Lemma zero_denominator_propagates_witness :
  operator_mul (mkFraction 1 0) (mkFraction 2 3) = Some (mkFraction 1 0) /\
  _den (mkFraction 1 0) = 0.
Proof.
  assert (E : operator_mul (mkFraction 1 0) (mkFraction 2 3) = Some (mkFraction 1 0))
    by (vm_compute; reflexivity).
  split; [exact E|].
  destruct (zero_denominator_propagates
              (mkFraction 1 0) (mkFraction 2 3) (mkFraction 1 0) 0) as ((_ & _ & H & _) & _).
  - left. reflexivity.
  - apply H. exact E.
Defined.

(** ** Normalization *)

Lemma reduce_fixed (n d : Z) :
  Z.gcd n d = 0 \/ Z.gcd n d = 1 -> reduce n d = mkFraction n d.
Proof.
  intros [E|E]; unfold reduce; rewrite E.
  - pose proof (Z.gcd_eq_0_l _ _ E). pose proof (Z.gcd_eq_0_r _ _ E). now subst.
  - now rewrite !Z.quot_1_r.
Qed.

Lemma reduce_idempotent (n d : Z) :
  reduce (_num (reduce n d)) (_den (reduce n d)) = reduce n d.
Proof.
  rewrite reduce_fixed by apply gcd_quot_cases. now destruct (reduce n d).
Qed.

(** X21: on every object [normalize2] returns the non-negative gcd [g] of
    the two fields and divides both by it, so that each new field times [g]
    is the old field; the object is left unchanged when [g] is 0 or 1; a
    second [normalize2] changes nothing; and for a non-negative denominator
    [normalize] does what [normalize2] does. *)
Theorem normalize2_divides_by_gcd (this : Fraction) :
  exists (r : Fraction) (g : Z),
    normalize2 this = Some (r, g) /\
    0 <= g /\ (g | _num this) /\ (g | _den this) /\
    (forall c : Z, (c | _num this) -> (c | _den this) -> (c | g)) /\
    _num r * g = _num this /\ _den r * g = _den this /\
    (g = 0 \/ g = 1 -> r = this) /\
    (exists g' : Z, normalize2 r = Some (r, g') /\ (g' = 0 \/ g' = 1)) /\
    (0 <= _den this -> normalize this = normalize2 this).
Proof.
  exists (reduce (_num this) (_den this)), (Z.gcd (_num this) (_den this)).
  split; [apply normalize2_reduce|].
  split; [apply Z.gcd_nonneg|].
  split; [apply Z.gcd_divide_l|].
  split; [apply Z.gcd_divide_r|].
  split; [intros c; apply Z.gcd_greatest|].
  split; [apply reduce_num|].
  split; [apply reduce_den|].
  split.
  { intros Hg. rewrite reduce_fixed by assumption. now destruct this. }
  split.
  { rewrite normalize2_reduce, reduce_idempotent.
    eexists. split; [reflexivity|]. apply gcd_quot_cases. }
  intros Hd. unfold normalize. now rewrite normalize1_nonneg.
Qed.

Lemma normalize2_divides_by_gcd_witness :
  exists (r : Fraction) (g : Z),
    normalize2 (mkFraction 6 (-4)) = Some (r, g) /\ (2 | g).
Proof.
  destruct (normalize2_divides_by_gcd (mkFraction 6 (-4)))
    as (r & g & Hr & _ & _ & _ & Hc & _).
  exists r, g. split; [exact Hr|].
  apply Hc; [exists 3; reflexivity | exists (-2); reflexivity].
Defined.
